(** * dd_widgets.timeseries: the anomaly-scoring helpers

    A shallow embedding of [src/dd_widgets/timeseries/__init__.py]:
    the evaluator ([get_anomaly_results], [get_anomaly_score]), the
    normalizers ([normalize_error], [normalize_data]), the aggregator
    ([concat_all_datafiles]) and the policy object [AnomalyParameters]
    with its [fit] and [compute_anomalies] methods.

    Conventions.
    - Python integers are [Z]; list positions are [nat].
    - numpy float64 entries are idealised as exact rationals [Q]: rounding,
      overflow and NaN inputs are outside that model, and only statements
      that survive rounding (formulas, shapes, non-strict bounds) are
      made over it.  The one place where the code can produce a
      non-finite value from finite data (an array divided by
      [len(col_ids) = 0]) is modelled with [npfloat].  Where rounding or
      overflow decides the matter, the same source lines are embedded
      over IEEE binary64 numbers in the module [Float64].
    - A raised exception is the [Err] case of [result]; nothing in the
      embedded code catches exceptions.
    - The module [anomalies] (imported as [ano]) is not among the sources:
      calls into it are the [Call] nodes of the program type [prog]. *)

From Stdlib Require Import ZArith QArith Qabs Qminmax Lqa Lia Floats.
From stdpp Require Import base option list strings pretty gmap fin_maps.

(** ** Exceptions and results *)

Inductive exn : Type :=
| IndexError (msg : string)
| ValueError (msg : string)
| ZeroDivisionError (msg : string)
| KeyError (key : string).

Inductive result (A : Type) : Type :=
| OK (a : A)
| Err (e : exn).
Arguments OK {A} a.
Arguments Err {A} e.

Definition rbind {A B} (r : result A) (k : A → result B) : result B :=
  match r with
  | OK a => k a
  | Err e => Err e
  end.

Declare Scope result_scope.
Delimit Scope result_scope with result.
Notation "'let*' x := r 'in' k" := (rbind r (λ x, k))
  (at level 10, x pattern, r at level 100, k at level 200) : result_scope.

(** ** The evaluator (methods [get_anomaly_results], [get_anomaly_score]) *)

Module Evaluator.

Definition interval : Type := Z * Z.

(** [start <= anom <= end] *)
Definition contains (iv : interval) (anom : Z) : bool :=
  ((iv.1 <=? anom) && (anom <=? iv.2))%Z.

(** The inner loop [for i in range(len(targ_anom))], left at its first
    match by [break]: the position of the first interval containing
    [anom], counted from [i]. *)
Fixpoint first_match (anom : Z) (targ_anom : list interval) (i : nat)
  : option nat :=
  match targ_anom with
  | [] => None
  | iv :: rest =>
      if contains iv anom then Some i else first_match anom rest (S i)
  end.

(** One iteration of the outer loop on the state [(found, fps)]. *)
Definition scan_step (targ_anom : list interval)
    (st : list bool * list Z) (anom : Z) : list bool * list Z :=
  match first_match anom targ_anom 0 with
  | Some i => (<[i := true]> st.1, st.2)
  | None => (st.1, st.2 ++ [anom])
  end.

Definition scan (targ_anom : list interval) (pred_anom : list Z)
  : list bool * list Z :=
  fold_left (scan_step targ_anom) pred_anom
            (replicate (length targ_anom) false, []).

(** [sum] of a list of integers. *)
Definition py_sum (l : list Z) : Z := foldr Z.add 0%Z l.

Definition get_anomaly_results (pred_anom : list Z)
    (targ_anom : list interval) : Z * Z * Z :=
  let '(found, fps) := scan targ_anom pred_anom in
  let tp := py_sum ((λ _, 1%Z) <$> filter (λ i : bool, i = true) found) in
  let fn := (Z.of_nat (length targ_anom) - tp)%Z in
  (tp, fn, Z.of_nat (length fps)).

(** True division of two Python integers. *)
Definition py_truediv (a b : Z) : result Q :=
  if (b =? 0)%Z then Err (ZeroDivisionError "division by zero")
  else OK (inject_Z a / inject_Z b)%Q.

Definition get_anomaly_score (pred_anom : list Z)
    (targ_anom : list interval) : result (Q * Q) :=
  let '(tp, fn, fp) := get_anomaly_results pred_anom targ_anom in
  (let* r1 := py_truediv tp (tp + fn) in
   let* r2 := py_truediv tp (tp + fp) in
   OK (r1, r2))%result.

(** *** What the claims count *)

(** the interval contains at least one predicted index *)
Definition hit (pred_anom : list Z) (iv : interval) : bool :=
  existsb (contains iv) pred_anom.

(** the predicted index is contained in no interval *)
Definition unmatched (targ_anom : list interval) (anom : Z) : bool :=
  forallb (λ iv, negb (contains iv anom)) targ_anom.

Definition count {A} (f : A → bool) (l : list A) : Z :=
  Z.of_nat (length (filter (λ x, f x = true) l)).

(** No predicted index lies in two intervals of the list (two positions):
    it holds in particular when the intervals are pairwise disjoint. *)
Definition unambiguous (pred_anom : list Z) (targ_anom : list interval)
  : Prop :=
  ∀ a i j iv jv, a ∈ pred_anom →
    targ_anom !! i = Some iv → targ_anom !! j = Some jv →
    contains iv a = true → contains jv a = true → i = j.

End Evaluator.

(** ** numpy arrays *)

(** A two-dimensional array of shape [(length rows, ncols)], row-major.
    [ncols] is kept apart from the rows: an array with no row still has
    a width. *)
Record matrix : Type := Matrix { ncols : nat; rows : list (list Q) }.

Definition nrows (m : matrix) : nat := length (rows m).

(** The rows of an array all have its width. *)
Definition rectangular (m : matrix) : Prop :=
  Forall (λ r, length r = ncols m) (rows m).

(** [m[i, j]] *)
Definition entry (m : matrix) (i j : nat) : option Q :=
  rows m !! i ≫= λ r, r !! j.

Definition np_absolute (m : matrix) : matrix :=
  Matrix (ncols m) (map (map Qabs) (rows m)).

(** A reduction along axis 0 by an operation without identity
    ([np.amax], [np.min]): it raises when that axis is empty. *)
Definition reduce_axis0 (f : Q → Q → Q) (name : string) (m : matrix)
  : result (list Q) :=
  match rows m with
  | [] => Err (ValueError ("zero-size array to reduction operation "
                           +:+ name +:+ " which has no identity"))
  | r :: rest => OK (fold_left (zip_with f) rest r)
  end.

Definition np_amax : matrix → result (list Q) := reduce_axis0 Qmax "maximum".
Definition np_min : matrix → result (list Q) := reduce_axis0 Qmin "minimum".

(** The shapes [(T,F)] and [(L,)] as numpy prints them in a message. *)
Definition shape_2d (t f : nat) : string :=
  "(" +:+ pretty t +:+ "," +:+ pretty f +:+ ")".

Definition shape_1d (l : nat) : string := "(" +:+ pretty l +:+ ",)".

(** The message of the [ValueError] that numpy raises for two operands
    whose shapes do not broadcast. *)
Definition broadcast_message (shape_a shape_b : string) : string :=
  "operands could not be broadcast together with shapes "
  +:+ shape_a +:+ " " +:+ shape_b +:+ " ".

(** An elementwise operation between an array of shape [(T, F)] and a
    one-dimensional array of length [L], with numpy's broadcasting:
    [L = F], or one of the two is [1]. *)
Definition broadcast (f : Q → Q → Q) (m : matrix) (v : list Q)
  : result matrix :=
  if decide (ncols m = length v) then
    OK (Matrix (ncols m) (map (λ r, zip_with f r v) (rows m)))
  else if decide (length v = 1) then
    OK (Matrix (ncols m)
          (map (λ r, map (λ x, f x (default 0%Q (v !! 0))) r) (rows m)))
  else if decide (ncols m = 1) then
    OK (Matrix (length v)
          (map (λ r, map (λ y, f (default 0%Q (r !! 0)) y) v) (rows m)))
  else Err (ValueError (broadcast_message (shape_2d (nrows m) (ncols m))
                                          (shape_1d (length v)))).

(** The message of the [IndexError] that numpy raises for a position
    [i] along an axis 1 of length [size]. *)
Definition out_of_bounds_message (i size : nat) : string :=
  "index " +:+ pretty i +:+ " is out of bounds for axis 1 with size "
  +:+ pretty size.

(** [m[:, ids]] with a list of column positions; the first position
    beyond the width is the one reported. *)
Definition take_cols (m : matrix) (ids : list nat) : result matrix :=
  if forallb (λ i, i <? ncols m) ids then
    OK (Matrix (length ids)
          (map (λ r, map (λ i, default 0%Q (r !! i)) ids) (rows m)))
  else Err (IndexError
              (out_of_bounds_message
                 (default 0%nat (head (filter (λ i, ncols m ≤ i) ids)))
                 (ncols m))).

(** [np.concatenate((a, b), axis = 0)] *)
Definition np_concatenate (a b : matrix) : result matrix :=
  if decide (ncols a = ncols b) then
    OK (Matrix (ncols a) (rows a ++ rows b))
  else Err (ValueError "all the input array dimensions except for the concatenation axis must match exactly").

(** A float that [/] and [>] of numpy can meet once a division by zero
    has happened (numpy warns and goes on). *)
Inductive npfloat : Type :=
| Finite (q : Q)
| PosInf
| NegInf
| NaN.

(** [x / n] for a float [x] and a length [n]. *)
Definition np_div_len (x : npfloat) (n : nat) : npfloat :=
  match x with
  | Finite q =>
      match n with
      | O => match (q ?= 0)%Q with
             | Gt => PosInf
             | Lt => NegInf
             | Eq => NaN
             end
      | S _ => Finite (q / inject_Z (Z.of_nat n))%Q
      end
  | other => other
  end.

(** [x > t] for a float [x] and a finite [t]; false on NaN. *)
Definition np_gt (x : npfloat) (t : Q) : bool :=
  match x with
  | Finite q => negb (Qle_bool q t)
  | PosInf => true
  | NegInf | NaN => false
  end.

(** [x] strictly exceeds [t]. *)
Definition exceeds (x : npfloat) (t : Q) : Prop :=
  match x with
  | Finite q => (t < q)%Q
  | PosInf => True
  | NegInf | NaN => False
  end.

(** [np.where(s > t)[0]] on a one-dimensional array, positions counted
    from [i]. *)
Fixpoint np_where_gt_from (i : nat) (s : list npfloat) (t : Q) : list nat :=
  match s with
  | [] => []
  | x :: rest =>
      if np_gt x t then i :: np_where_gt_from (S i) rest t
      else np_where_gt_from (S i) rest t
  end.

Definition np_where_gt : list npfloat → Q → list nat := np_where_gt_from 0.

(** ** The normalizers *)

Definition eps : Q := 1 # 100000.

(** [max_data - min_data + eps] *)
Definition divisor (max_data min_data : list Q) : list Q :=
  zip_with (λ mx mn, mx - mn + eps)%Q max_data min_data.

Definition normalize_error (data : matrix) : result matrix :=
  (let* max_data := np_amax data in
   let* min_data := np_min data in
   let* centred := broadcast Qminus data min_data in
   broadcast Qdiv centred (divisor max_data min_data))%result.

Definition normalize_data (pred targ : matrix) : result (matrix * matrix) :=
  (let* max_data := np_amax targ in
   let* min_data := np_min targ in
   let* pred_centred := broadcast Qminus pred min_data in
   let* norm_pred := broadcast Qdiv pred_centred (divisor max_data min_data) in
   let* targ_centred := broadcast Qminus targ min_data in
   let* norm_targ := broadcast Qdiv targ_centred (divisor max_data min_data) in
   OK (norm_pred, norm_targ))%result.

(** ** The normalizer over float64

    [normalize_error] once more, with the entries as IEEE binary64
    numbers and their rounded operations.  An array of shape [(T, F)] is
    the list of its [T] rows; [max_data] and [min_data] then have the
    width of the rows, so the operands of [-], [+] and [np.divide] meet
    position by position. *)

Module Float64.

Local Open Scope float_scope.

(** [np.maximum] and [np.minimum] of two numbers: a NaN operand is the
    result. *)
Definition np_maximum (a b : float) : float :=
  if is_nan a then a else if is_nan b then b
  else if a <? b then b else a.

Definition np_minimum (a b : float) : float :=
  if is_nan a then a else if is_nan b then b
  else if b <? a then b else a.

Definition reduce_axis0 (f : float → float → float) (name : string)
    (data : list (list float)) : result (list float) :=
  match data with
  | [] => Err (ValueError ("zero-size array to reduction operation "
                           +:+ name +:+ " which has no identity"))
  | r :: rest => OK (fold_left (zip_with f) rest r)
  end.

Definition np_amax : list (list float) → result (list float) :=
  reduce_axis0 np_maximum "maximum".
Definition np_min : list (list float) → result (list float) :=
  reduce_axis0 np_minimum "minimum".

(** The float64 number nearest to [1E-5]. *)
#[warnings="-inexact-float"]
Definition eps : float := 1e-5.

Definition normalize_error (data : list (list float))
  : result (list (list float)) :=
  (let* max_data := np_amax data in
   let* min_data := np_min data in
   OK (map (λ r, zip_with PrimFloat.div
                   (zip_with PrimFloat.sub r min_data)
                   (zip_with (λ mx mn, mx - mn + eps) max_data min_data))
           data))%result.

(** A column whose range is large against [eps], and a column whose
    range is beyond the largest float64 number. *)
Definition wide_column : list (list float) := [[0]; [1e12]].

#[warnings="-inexact-float"]
Definition overflowing_column : list (list float) := [[-1e308]; [1e308]].

End Float64.

(** ** The aggregator *)

(** The body of [for model in error]: one model of one file. *)
Definition concat_model (result_ : gmap string matrix) (model : string)
    (e : matrix) : result (gmap string matrix) :=
  match result_ !! model with
  | None => OK (<[model := e]> result_)
  | Some r =>
      (let* c := np_concatenate r e in OK (<[model := c]> result_))%result
  end.

(** The body of [for datafile in datafiles].  [errors[datafile]] raises
    on an unknown file.  The models of a file are visited in the order
    of [map_fold] (in Python, in the order of the dictionary): each
    model touches its own key only. *)
Definition concat_datafile (errors : gmap string (gmap string matrix))
    (result_ : gmap string matrix) (datafile : string)
  : result (gmap string matrix) :=
  match errors !! datafile with
  | None => Err (KeyError datafile)
  | Some error =>
      map_fold (λ model e acc, rbind acc (λ r, concat_model r model e))
               (OK result_) error
  end.

Fixpoint concat_loop (errors : gmap string (gmap string matrix))
    (datafiles : list string) (result_ : gmap string matrix)
  : result (gmap string matrix) :=
  match datafiles with
  | [] => OK result_
  | datafile :: rest =>
      rbind (concat_datafile errors result_ datafile)
            (concat_loop errors rest)
  end.

Definition concat_all_datafiles (errors : gmap string (gmap string matrix))
    (datafiles : list string) : result (gmap string matrix) :=
  concat_loop errors datafiles ∅.

(** *** What the claim describes *)

(** The matrix of [model] in [datafile], when there is one. *)
Definition block (errors : gmap string (gmap string matrix))
    (model datafile : string) : option matrix :=
  errors !! datafile ≫= λ error, error !! model.

(** The matrices of [model] in the listed files, in the order of the
    list. *)
Definition blocks (errors : gmap string (gmap string matrix))
    (model : string) (datafiles : list string) : list matrix :=
  omap (block errors model) datafiles.

(** The matrices of one model have one width. *)
Definition equal_width (errors : gmap string (gmap string matrix)) : Prop :=
  ∀ model f1 f2 e1 e2,
    block errors model f1 = Some e1 → block errors model f2 = Some e2 →
    ncols e1 = ncols e2.

(** One more block under what is stacked so far. *)
Definition stack (acc : option matrix) (b : option matrix) : option matrix :=
  match acc, b with
  | Some r, Some e => Some (Matrix (ncols r) (rows r ++ rows e))
  | Some r, None => Some r
  | None, _ => b
  end.

(** Two files with one model, for examples. *)
Definition example_errors : gmap string (gmap string matrix) :=
  <["a" := {["m" := Matrix 1 [[1]; [2]]%Q]}]>
    (<["b" := {["m" := Matrix 1 [[3]]%Q]}]> ∅).

(** ** The policy object [AnomalyParameters] *)

(** [(anomalies, ano_signal, ano_peaks)]; [None] is Python's [None]. *)
Definition anomaly_signal : Type :=
  list nat * option (list npfloat) * option (list nat).

(** [get_col]: the position of the first entry of [header] equal to [l],
    counted from [i]. *)
Fixpoint get_col_from (i : nat) (header : list string) (l : string)
  : result nat :=
  match header with
  | [] => Err (IndexError "not found")
  | hl :: rest =>
      if String.eqb hl l then OK i else get_col_from (S i) rest l
  end.

Definition get_col : list string → string → result nat := get_col_from 0.

(** The loop that fills [col_ids] in [fit] and in [compute_anomalies]:
    [lbls] is what is left of [self.labels]. *)
Fixpoint col_ids_loop (labels_ ignore_ lbls : list string)
  : result (list nat) :=
  match lbls with
  | [] => OK []
  | lbl :: rest =>
      if bool_decide (lbl ∈ ignore_) then col_ids_loop labels_ ignore_ rest
      else
        (let* i := get_col labels_ lbl in
         let* ids := col_ids_loop labels_ ignore_ rest in
         OK (i :: ids))%result
  end.

(** [c = smooth_factor + 1; conv = [1 / c] * c], the weight [1 / c] as
    an exact rational: its float64 rounding, and with it the sum of the
    weights, is not in this model. *)
Definition smoothing_kernel (smooth_factor_ : Z) : result (list Q) :=
  let c := (smooth_factor_ + 1)%Z in
  if (c =? 0)%Z then Err (ZeroDivisionError "division by zero")
  else OK (replicate (Z.to_nat c) (1 / inject_Z c)%Q).

Definition available_methods : list string :=
  ["threshold_norm"; "threshold"; "peaks"; "votes"; "gaussian"].

(** [str] of a list of plain strings (no quote, no escape). *)
Definition py_str_list (l : list string) : string :=
  "[" +:+ String.concat ", " (map (λ s, "'" +:+ s +:+ "'") l) +:+ "]".

Definition unknown_method_message (method_ : string) : string :=
  "Unknown anomaly method: " +:+ method_ +:+ ". Available methods are "
  +:+ py_str_list available_methods.

Section Policy.

(** The state of an [ano.ErrorNormalizationModel] object. *)
Variable model : Type.

(** The entry points of the module [ano] that the policy calls, with the
    arguments as the call sites give them.  [fit_gauss] is [None] where
    the call leaves the keyword out. *)
Inductive ano_call : Type → Type :=
| ErrorNormalizationModel : ano_call model
| Model_fit (m : model) (error : matrix) (conv : list Q)
    (fit_gauss : option bool) (display : bool) : ano_call model
| Model_anomaly_dates (m : model) (error : matrix) (threshold_ : Q)
    (conv : list Q) (display : bool) : ano_call anomaly_signal
| Anomaly_dates_peaks (error_norm : matrix) (n_anomalies_ : Z)
    (conv : list Q) (peak_width_ : Z) : ano_call anomaly_signal
| Error_vote (error_norm : matrix) (n_anomalies_ : Z) (conv : list Q)
  : ano_call (list npfloat)
| Anomaly_dates_votes (ano_signal : list npfloat) (n_anomalies_ : Z)
  : ano_call (list nat)
| Sum_conv_error (error_norm : matrix) (conv : list Q)
  : ano_call (list npfloat).

(** A computation that returns, raises, or calls into [ano] and goes on
    with what the call returns. *)
Inductive prog (A : Type) : Type :=
| Ret (a : A)
| Raise (e : exn)
| Call {X : Type} (c : ano_call X) (k : X → prog A).
Arguments Ret {A} a.
Arguments Raise {A} e.
Arguments Call {A X} c k.

Fixpoint pbind {A B} (p : prog A) (f : A → prog B) : prog B :=
  match p with
  | Ret a => f a
  | Raise e => Raise e
  | Call c k => Call c (λ x, pbind (k x) f)
  end.

Definition lift {A} (r : result A) : prog A :=
  match r with
  | OK a => Ret a
  | Err e => Raise e
  end.

Record AnomalyParameters : Type := {
  method : string;
  smooth_factor : Z;
  labels : list string;
  ignore : list string;
  threshold : Q;
  n_anomalies : Z;
  peak_width : Z;
  err_norm_model : option model
}.

(** [AnomalyParameters.__init__]; [peaks_width] may be any value. *)
Definition init {W : Type} (method_ : string) (smooth_factor_ : Z)
    (threshold_ : Q) (n_anomalies_ : Z) (peaks_width : W)
    (ignore_ : list string) : AnomalyParameters :=
  {| method := method_;
     smooth_factor := smooth_factor_;
     labels := [];
     ignore := ignore_;
     threshold := threshold_;
     n_anomalies := n_anomalies_;
     peak_width := 10;
     err_norm_model := None |}.

(** Attribute assignments made by the owner of the object. *)
Definition set_labels (self : AnomalyParameters) (l : list string)
  : AnomalyParameters :=
  {| method := method self; smooth_factor := smooth_factor self;
     labels := l; ignore := ignore self; threshold := threshold self;
     n_anomalies := n_anomalies self; peak_width := peak_width self;
     err_norm_model := err_norm_model self |}.

Definition set_threshold (self : AnomalyParameters) (t : Q)
  : AnomalyParameters :=
  {| method := method self; smooth_factor := smooth_factor self;
     labels := labels self; ignore := ignore self; threshold := t;
     n_anomalies := n_anomalies self; peak_width := peak_width self;
     err_norm_model := err_norm_model self |}.

Definition set_n_anomalies (self : AnomalyParameters) (n : Z)
  : AnomalyParameters :=
  {| method := method self; smooth_factor := smooth_factor self;
     labels := labels self; ignore := ignore self;
     threshold := threshold self; n_anomalies := n;
     peak_width := peak_width self; err_norm_model := err_norm_model self |}.

Definition set_err_norm_model (self : AnomalyParameters) (m : model)
  : AnomalyParameters :=
  {| method := method self; smooth_factor := smooth_factor self;
     labels := labels self; ignore := ignore self;
     threshold := threshold self; n_anomalies := n_anomalies self;
     peak_width := peak_width self; err_norm_model := Some m |}.

Definition col_ids (self : AnomalyParameters) : result (list nat) :=
  col_ids_loop (labels self) (ignore self) (labels self).

(** [AnomalyParameters.fit]: returns the object with its model set. *)
Definition fit (self : AnomalyParameters) (error : matrix)
  : prog AnomalyParameters :=
  Call ErrorNormalizationModel (λ err_norm_model_,
  pbind (lift (smoothing_kernel (smooth_factor self))) (λ conv,
  pbind (lift (col_ids self)) (λ ids,
  pbind (lift (take_cols error ids)) (λ error,
  Call (Model_fit err_norm_model_ error conv None true) (λ fitted,
  Ret (set_err_norm_model self fitted)))))).

(** What [compute_anomalies] computes before it looks at [self.method]:
    [(conv, col_ids, error, error_norm)]. *)
Definition preamble (self : AnomalyParameters) (error : matrix)
  : result (list Q * list nat * matrix * matrix) :=
  (let* conv := smoothing_kernel (smooth_factor self) in
   let* ids := col_ids self in
   let* error := take_cols error ids in
   let* error_norm := normalize_error (np_absolute error) in
   OK (conv, ids, error, error_norm))%result.

(** The model a model-based method works with: the one stored in the
    object or, when there is none ([if not err_norm_model]: a model
    object counts as true), a new one fit on the matrix at hand. *)
Definition model_or_fit (self : AnomalyParameters) (error : matrix)
    (conv : list Q) (fit_gauss : option bool) (display : bool)
  : prog model :=
  match err_norm_model self with
  | Some m => Ret m
  | None =>
      Call ErrorNormalizationModel (λ m,
      Call (Model_fit m error conv fit_gauss display) Ret)
  end.

Definition compute_anomalies (self : AnomalyParameters) (error : matrix)
    (display : bool) : prog anomaly_signal :=
  pbind (lift (preamble self error)) (λ '(conv, ids, error, error_norm),
  if String.eqb (method self) "threshold_norm" then
    pbind (model_or_fit self error conv None display) (λ err_norm_model_,
    Call (Model_anomaly_dates err_norm_model_ error (threshold self) conv
            display) Ret)
  else if String.eqb (method self) "gaussian" then
    pbind (model_or_fit self error conv (Some true) display) (λ gauss_model,
    Call (Model_anomaly_dates gauss_model error (threshold self) conv
            display) Ret)
  else if String.eqb (method self) "peaks" then
    Call (Anomaly_dates_peaks error_norm (n_anomalies self) conv
            (peak_width self)) Ret
  else if String.eqb (method self) "votes" then
    Call (Error_vote error_norm (n_anomalies self) conv) (λ ano_signal,
    Call (Anomaly_dates_votes ano_signal (n_anomalies self)) (λ anomalies,
    Ret (anomalies, Some ano_signal, None)))
  else if String.eqb (method self) "threshold" then
    Call (Sum_conv_error error_norm conv) (λ summed,
    let error_norm := map (λ x, np_div_len x (length ids)) summed in
    Ret (np_where_gt error_norm (threshold self), Some error_norm, None))
  else
    Raise (ValueError (unknown_method_message (method self)))).

(** *** Running a program against an implementation of [ano] *)

Definition handler : Type := ∀ X, ano_call X → result X.

Fixpoint run (h : handler) {A} (p : prog A) : result A :=
  match p with
  | Ret a => OK a
  | Raise e => Err e
  | Call c k =>
      match h _ c with
      | OK x => run h (k x)
      | Err e => Err e
      end
  end.

(** A call without the model it is made on. *)
Inductive call_log : Type :=
| LogNew
| LogFit (error : matrix) (conv : list Q) (fit_gauss : option bool)
    (display : bool)
| LogAnomalyDates (error : matrix) (threshold_ : Q) (conv : list Q)
    (display : bool)
| LogPeaks (error_norm : matrix) (n_anomalies_ : Z) (conv : list Q)
    (peak_width_ : Z)
| LogVote (error_norm : matrix) (n_anomalies_ : Z) (conv : list Q)
| LogVotes (ano_signal : list npfloat) (n_anomalies_ : Z)
| LogSumConv (error_norm : matrix) (conv : list Q).

Definition erase {X} (c : ano_call X) : call_log :=
  match c with
  | ErrorNormalizationModel => LogNew
  | Model_fit _ e conv g d => LogFit e conv g d
  | Model_anomaly_dates _ e t conv d => LogAnomalyDates e t conv d
  | Anomaly_dates_peaks e n conv w => LogPeaks e n conv w
  | Error_vote e n conv => LogVote e n conv
  | Anomaly_dates_votes s n => LogVotes s n
  | Sum_conv_error e conv => LogSumConv e conv
  end.

(** The calls into [ano] made along a run, in order. *)
Fixpoint calls (h : handler) {A} (p : prog A) : list call_log :=
  match p with
  | Ret _ | Raise _ => []
  | Call c k =>
      erase c :: match h _ c with
                 | OK x => calls h (k x)
                 | Err _ => []
                 end
  end.

(** The matrices handed to the model ([fit], [anomaly_dates]). *)
Definition model_matrices (l : list call_log) : list matrix :=
  omap (λ c, match c with
             | LogFit e _ _ _ | LogAnomalyDates e _ _ _ => Some e
             | _ => None
             end) l.

End Policy.

Arguments Ret {model A} a.
Arguments Raise {model A} e.
Arguments Call {model A X} c k.
Arguments ErrorNormalizationModel {model}.
Arguments Model_fit {model} m error conv fit_gauss display.
Arguments Model_anomaly_dates {model} m error threshold_ conv display.
Arguments Anomaly_dates_peaks {model} error_norm n_anomalies_ conv peak_width_.
Arguments Error_vote {model} error_norm n_anomalies_ conv.
Arguments Anomaly_dates_votes {model} ano_signal n_anomalies_.
Arguments Sum_conv_error {model} error_norm conv.
Arguments init {model W} method_ smooth_factor_ threshold_ n_anomalies_
  peaks_width ignore_.
Arguments method {model} _.
Arguments smooth_factor {model} _.
Arguments labels {model} _.
Arguments ignore {model} _.
Arguments threshold {model} _.
Arguments n_anomalies {model} _.
Arguments peak_width {model} _.
Arguments err_norm_model {model} _.
Arguments set_labels {model} self l.
Arguments set_threshold {model} self t.
Arguments set_n_anomalies {model} self n.
Arguments set_err_norm_model {model} self m.
Arguments col_ids {model} self.
Arguments fit {model} self error.
Arguments preamble {model} self error.
Arguments compute_anomalies {model} self error display.
Arguments run {model} h {A} p.
Arguments calls {model} h {A} p.
Arguments pbind {model A B} p f.
Arguments lift {model A} r.

(** ** An implementation of [ano] to run the policy against *)

(** Modelled from the spec: the Smoother of §4.2, which is not among the
    sources.  The signal is convolved with the kernel, [conv_full_at] is
    entry [n] of the full convolution, and the output keeps the length
    of the input as a same-mode convolution does. *)
Definition conv_full_at (signal conv : list Q) (n : nat) : Q :=
  foldr Qplus 0%Q
    (imap (λ i x, if decide (i ≤ n)
                  then Qmult x (default 0%Q (conv !! (n - i))) else 0%Q)
          signal).

Definition smooth (signal conv : list Q) : list Q :=
  map (λ k, conv_full_at signal conv (k + (length conv - 1) / 2))
      (seq 0 (length signal)).

Definition column (m : matrix) (j : nat) : list Q :=
  map (λ r, default 0%Q (r !! j)) (rows m).

(** Modelled from the spec: [ano.sum_conv_error], which is not among the
    sources.  By §4.4 the [threshold] method averages the smoothed
    per-feature traces; the policy divides by the number of features, so
    this is their sum, step by step. *)
Definition sum_conv_error (error_norm : matrix) (conv : list Q)
  : list npfloat :=
  map (λ t, Finite (foldr Qplus 0%Q
                      (map (λ j, default 0%Q
                                   (smooth (column error_norm j) conv !! t))
                           (seq 0 (ncols error_norm)))))
      (seq 0 (nrows error_norm)).

(** Modelled from the spec: the module [ano], which is not among the
    sources.  Of an [ErrorNormalizationModel] this keeps the mode it was
    last fit in ([None] before any fit; by §4.3 [use_gaussian] is False
    where the keyword is left out).  The spec leaves the scores of
    [anomaly_dates] and of the peak and vote strategies open: they
    return no anomaly here, so this implementation serves to run the
    policy and to observe its calls, not to judge those strategies. *)
Definition ano_spec : handler (option bool) :=
  λ X c,
    match c in ano_call _ X return result X with
    | ErrorNormalizationModel => OK None
    | Model_fit _ _ _ fit_gauss _ => OK (Some (default false fit_gauss))
    | Model_anomaly_dates _ _ _ _ _ => OK ([], None, None)
    | Anomaly_dates_peaks _ _ _ _ => OK ([], None, None)
    | Error_vote _ _ _ => OK []
    | Anomaly_dates_votes _ _ => OK []
    | Sum_conv_error error_norm conv => OK (sum_conv_error error_norm conv)
    end.

(** Objects and a matrix for examples: one label, two time steps. *)
Definition example_params (method_ : string)
  : AnomalyParameters (option bool) :=
  set_labels (init method_ 1 (1 # 4) 40 10%Z []) ["a"].

Definition example_error : matrix := Matrix 1 [[2]; [-4]]%Q.

(** The same with two labels and two columns. *)
Definition two_label_params : AnomalyParameters (option bool) :=
  set_labels (init "threshold" 1 (1 # 4) 40 10%Z []) ["a"; "b"].

Definition two_column_error : matrix := Matrix 2 [[2; 1]; [-4; 3]]%Q.

(** ** Further functions of the module *)

(** *** Counting for the evaluator *)

(** Position [i] is the first match of some predicted index. *)
Definition first_hit (pred_anom : list Z) (targ_anom : list Evaluator.interval)
    (i : nat) : bool :=
  existsb (λ a, bool_decide (Evaluator.first_match a targ_anom 0 = Some i))
          pred_anom.

(** An interval moved by [s] time steps. *)
Definition shift_interval (s : Z) (iv : Evaluator.interval)
  : Evaluator.interval :=
  (iv.1 + s, iv.2 + s)%Z.

(** The sum of a list of rationals. *)
Definition Qsum (l : list Q) : Q := foldr Qplus 0%Q l.

(** *** Label lookup *)

(** The position of the first occurrence of a label. *)
Definition first_position (labels_ : list string) (lbl : string) (i : nat)
  : Prop :=
  labels_ !! i = Some lbl ∧ ∀ j, j < i → labels_ !! j ≠ Some lbl.

(** *** [get_signal_mean_error]: one feature of two matrices *)

(** [m[:, feat]] for a position [feat]: a one-dimensional array. *)
Definition take_col (m : matrix) (feat : nat) : result (list Q) :=
  if feat <? ncols m then OK (map (λ r, default 0%Q (r !! feat)) (rows m))
  else Err (IndexError (out_of_bounds_message feat (ncols m))).

(** [np.amax] and [np.min] along axis 0 of a one-dimensional array. *)
Definition reduce_1d (f : Q → Q → Q) (name : string) (v : list Q)
  : result Q :=
  match v with
  | [] => Err (ValueError ("zero-size array to reduction operation "
                           +:+ name +:+ " which has no identity"))
  | x :: rest => OK (fold_left f rest x)
  end.

(** An elementwise operation between two one-dimensional arrays, with
    numpy's broadcasting: equal lengths, or one of them of length 1. *)
Definition broadcast_1d (f : Q → Q → Q) (a b : list Q) : result (list Q) :=
  if decide (length a = length b) then OK (zip_with f a b)
  else if decide (length b = 1) then
    OK (map (λ x, f x (default 0%Q (b !! 0))) a)
  else if decide (length a = 1) then
    OK (map (λ y, f (default 0%Q (a !! 0)) y) b)
  else Err (ValueError (broadcast_message (shape_1d (length a))
                                          (shape_1d (length b)))).

(** [normalize_data] on one-dimensional arrays: the maximum and the
    minimum are scalars. *)
Definition normalize_data_1d (pred targ : list Q)
  : result (list Q * list Q) :=
  (let* max_data := reduce_1d Qmax "maximum" targ in
   let* min_data := reduce_1d Qmin "minimum" targ in
   OK (map (λ p, (p - min_data) / (max_data - min_data + eps))%Q pred,
       map (λ t, (t - min_data) / (max_data - min_data + eps))%Q targ))%result.

(** [np.mean] of a one-dimensional array; NaN (with a warning) when it
    is empty. *)
Definition np_mean (v : list Q) : npfloat :=
  match v with
  | [] => NaN
  | _ => Finite (Qsum v / inject_Z (Z.of_nat (length v)))%Q
  end.

Definition get_signal_mean_error (pred targ : matrix) (feat : nat)
  : result npfloat :=
  (let* pred_col := take_col pred feat in
   let* targ_col := take_col targ feat in
   let* norms := normalize_data_1d pred_col targ_col in
   let '(pred_norm, targ_norm) := norms in
   let* diff := broadcast_1d Qminus targ_norm pred_norm in
   OK (np_mean (map Qabs diff)))%result.

(** *** [TimeseriesPlot.learn_anomalies] *)

(** [error = concat_all_datafiles(self.errors, datafiles);
    self.anomaly_params.fit(error[model.sname])], on the fields of the
    plot that it reads; returns the policy object as [fit] leaves it. *)
Definition learn_anomalies {model : Type}
    (errors : gmap string (gmap string matrix))
    (anomaly_params : AnomalyParameters model) (sname : string)
    (datafiles : list string) : prog model (AnomalyParameters model) :=
  pbind (lift (concat_all_datafiles errors datafiles)) (λ error,
  match error !! sname with
  | Some e => fit anomaly_params e
  | None => Raise (KeyError sname)
  end).

(** *** [get_datafiles]: the csv files under a directory *)

(** What a directory holds: files and directories, by name.  A listing
    is in the order [os.listdir] gives. *)
#[warnings="-register-all"]
Inductive fs_entry : Type :=
| File (fname : string)
| Dir (fname : string) (children : list fs_entry).

(** [s.endswith(suffix)] *)
Fixpoint endswith (s suffix : string) : bool :=
  if String.eqb s suffix then true
  else match s with
       | EmptyString => false
       | String _ s' => endswith s' suffix
       end.

(** [os.path.join(a, b)], POSIX flavour. *)
Definition path_join (a b : string) : string :=
  if String.prefix "/" b then b
  else if String.eqb a EmptyString || endswith a "/" then a +:+ b
  else a +:+ "/" +:+ b.

(** The body of the loop of [get_datafiles] for one entry of the
    directory; [datafile] is [os.path.join(prefix, fname)]. *)
Fixpoint datafiles_of (prefix : string) (e : fs_entry) : list string :=
  match e with
  | File fname =>
      if endswith fname ".csv" then [path_join prefix fname] else []
  | Dir fname children =>
      flat_map (datafiles_of (path_join prefix fname)) children
  end.

(** [get_datafiles(datadir, prefix)], with [listing] what [datadir]
    holds. *)
Definition get_datafiles (listing : list fs_entry) (prefix : string)
  : list string :=
  flat_map (datafiles_of prefix) listing.

(** A name as [os.listdir] gives them: not empty, without [/]. *)
Fixpoint no_slash (s : string) : bool :=
  match s with
  | EmptyString => true
  | String c s' => negb (String.eqb (String c EmptyString) "/") && no_slash s'
  end.

Definition valid_name (s : string) : bool :=
  negb (String.eqb s EmptyString) && no_slash s.

Fixpoint valid_entry (e : fs_entry) : bool :=
  match e with
  | File fname => valid_name fname
  | Dir fname children => valid_name fname && forallb valid_entry children
  end.

(** A directory for examples. *)
Definition example_listing : list fs_entry :=
  [File "a.csv"; File "notes.txt";
   Dir "test" [File "b.csv"; Dir "old.csv" [File "c.csv"; File "d.json"]]].

(** * Properties *)

(** ** The evaluator *)

Module EvaluatorFacts.
Import Evaluator.

Lemma contains_bounds iv a :
  contains iv a = true ↔ (iv.1 ≤ a ∧ a ≤ iv.2)%Z.
Proof. unfold contains. rewrite andb_true_iff, !Z.leb_le. done. Qed.

Lemma first_match_Some a targ k i :
  first_match a targ k = Some i →
  k ≤ i ∧ ∃ iv, targ !! (i - k) = Some iv ∧ contains iv a = true.
Proof.
  revert k. induction targ as [|iv rest IH]; intros k; simpl; [done|].
  destruct (contains iv a) eqn:Hc.
  - intros [= <-]. split; [lia|]. exists iv. by rewrite Nat.sub_diag.
  - intros H. apply IH in H as (Hle & jv & Hj & Hjv). split; [lia|].
    exists jv. split; [|done].
    replace (i - k) with (S (i - S k)) by lia. done.
Qed.

Lemma first_match_None a targ k :
  first_match a targ k = None ↔ unmatched targ a = true.
Proof.
  revert k. induction targ as [|iv rest IH]; intros k; simpl; [done|].
  destruct (contains iv a); simpl; [split; discriminate | apply IH].
Qed.

(** Some interval contains [a]: the search finds one, not later. *)
Lemma first_match_le a targ k j jv :
  targ !! j = Some jv → contains jv a = true →
  ∃ i, first_match a targ k = Some i ∧ i ≤ k + j.
Proof.
  revert k j. induction targ as [|iv rest IH]; intros k j; [done|].
  simpl. destruct (contains iv a) eqn:Hc.
  - intros _ _. exists k. split; [done | lia].
  - destruct j as [|j]; simpl.
    + intros [= ->]. congruence.
    + intros Hj Hjv. destruct (IH (S k) j Hj Hjv) as (i & Hi & Hle).
      exists i. split; [done | lia].
Qed.

Lemma first_match_lt a targ i :
  first_match a targ 0 = Some i → i < length targ.
Proof.
  intros H. apply first_match_Some in H as (_ & iv & Hiv & _).
  apply lookup_lt_Some in Hiv. lia.
Qed.

(** Where no index lies in two intervals, the first match is the match. *)
Lemma first_match_unambiguous pred targ a i iv :
  unambiguous pred targ → a ∈ pred →
  targ !! i = Some iv → contains iv a = true →
  first_match a targ 0 = Some i.
Proof.
  intros Hu Ha Hi Hc.
  destruct (first_match_le a targ 0 i iv Hi Hc) as (j & Hj & _).
  rewrite Hj. f_equal.
  destruct (first_match_Some _ _ _ _ Hj) as (_ & jv & Hjv & Hcj).
  rewrite Nat.sub_0_r in Hjv. exact (Hu a j i jv iv Ha Hjv Hi Hcj Hc).
Qed.

(** The state of the outer loop after the indices [pred], from a state
    [(found, fps)]. *)
Lemma scan_invariant targ pred found fps :
  length found = length targ →
  let st := fold_left (scan_step targ) pred (found, fps) in
  length st.1 = length targ ∧
  (∀ i, st.1 !! i = Some true ↔
        found !! i = Some true ∨
        ∃ a, a ∈ pred ∧ first_match a targ 0 = Some i) ∧
  st.2 = fps ++ filter (λ a, unmatched targ a = true) pred.
Proof.
  revert found fps. induction pred as [|a pred IH]; intros found fps Hlen.
  - simpl. split; [done|]. split; [|by rewrite app_nil_r].
    intros i. split; [by left|]. intros [?|(a & Ha & _)]; [done|].
    by apply elem_of_nil in Ha.
  - cbn [fold_left].
    assert (scan_step targ (found, fps) a
            = match first_match a targ 0 with
              | Some i => (<[i:=true]> found, fps)
              | None => (found, fps ++ [a])
              end) as -> by reflexivity.
    destruct (first_match a targ 0) as [k|] eqn:Hk.
    + assert (Hlen' : length (<[k:=true]> found) = length targ)
        by (by rewrite length_insert).
      destruct (IH (<[k:=true]> found) fps Hlen') as (H1 & H2 & H3).
      split; [done|]. split.
      * intros i. rewrite H2. split.
        -- intros [Hi|(b & Hb & Hbi)].
           ++ destruct (decide (k = i)) as [->|Hne].
              ** right. exists a. split; [left | done].
              ** left. by rewrite list_lookup_insert_ne in Hi.
           ++ right. exists b. split; [by right | done].
        -- intros [Hi|(b & Hb & Hbi)].
           ++ left. destruct (decide (k = i)) as [->|Hne].
              ** apply list_lookup_insert_eq. by apply lookup_lt_Some in Hi.
              ** by rewrite list_lookup_insert_ne.
           ++ apply elem_of_cons in Hb as [->|Hb].
              ** left. rewrite Hk in Hbi. injection Hbi as ->.
                 apply list_lookup_insert_eq. rewrite Hlen.
                 by apply first_match_lt in Hk.
              ** right. by exists b.
      * rewrite H3. f_equal. rewrite filter_cons.
        apply first_match_Some in Hk as (_ & iv & Hiv & Hc).
        destruct (decide (unmatched targ a = true)) as [Hu|]; [|done].
        exfalso. unfold unmatched in Hu. rewrite forallb_forall in Hu.
        apply list_elem_of_lookup_2, list_elem_of_In in Hiv.
        specialize (Hu _ Hiv). rewrite Hc in Hu. done.
    + destruct (IH found (fps ++ [a]) Hlen) as (H1 & H2 & H3).
      split; [done|]. split.
      * intros i. rewrite H2. split.
        -- intros [Hi|(b & Hb & Hbi)]; [by left|].
           right. exists b. split; [by right | done].
        -- intros [Hi|(b & Hb & Hbi)]; [by left|].
           apply elem_of_cons in Hb as [->|Hb]; [congruence|].
           right. by exists b.
      * rewrite H3, <- app_assoc. f_equal. rewrite filter_cons.
        apply first_match_None in Hk.
        destruct (decide (unmatched targ a = true)); done.
Qed.

Lemma py_sum_ones {A} (l : list A) :
  py_sum ((λ _, 1%Z) <$> l) = Z.of_nat (length l).
Proof.
  unfold py_sum. induction l as [|x l IH]; [done|].
  rewrite fmap_cons, length_cons. cbn [foldr]. rewrite IH. lia.
Qed.

Lemma filter_true_map {A} (f : A → bool) (l : list A) :
  length (filter (λ b : bool, b = true) (f <$> l))
  = length (filter (λ x, f x = true) l).
Proof.
  induction l as [|x l IH]; [done|].
  rewrite fmap_cons, !filter_cons.
  destruct (decide (f x = true)); simpl; by rewrite IH.
Qed.

Lemma hit_true pred iv :
  hit pred iv = true ↔ ∃ a, a ∈ pred ∧ contains iv a = true.
Proof.
  unfold hit. rewrite existsb_exists. split.
  - intros (a & Ha & Hc). exists a. by rewrite list_elem_of_In.
  - intros (a & Ha & Hc). exists a. by rewrite <- list_elem_of_In.
Qed.

(** The false negatives and the false positives, for every input. *)
Lemma get_anomaly_results_fn_fp pred targ :
  ∃ tp, get_anomaly_results pred targ
        = (tp, (Z.of_nat (length targ) - tp)%Z, count (unmatched targ) pred).
Proof.
  unfold get_anomaly_results, scan.
  pose proof (scan_invariant targ pred (replicate (length targ) false) []
                (length_replicate _ _)) as (_ & _ & H3).
  destruct (fold_left _ _ _) as [found fps]. simpl in *.
  eexists. rewrite H3. reflexivity.
Qed.

(** The found flags, where no index lies in two intervals. *)
Lemma scan_found pred targ :
  unambiguous pred targ → (scan targ pred).1 = hit pred <$> targ.
Proof.
  intros Hu. unfold scan.
  pose proof (scan_invariant targ pred (replicate (length targ) false) []
                (length_replicate _ _)) as (H1 & H2 & _).
  simpl in H1, H2. set (st := fold_left _ _ _) in *.
  apply list_eq. intros i. rewrite list_lookup_fmap.
  destruct (targ !! i) as [iv|] eqn:Hiv; simpl.
  - destruct (st.1 !! i) as [b|] eqn:Hb.
    2:{ apply lookup_ge_None in Hb. apply lookup_lt_Some in Hiv. lia. }
    f_equal. destruct b.
    + apply H2 in Hb as [Hb|(a & Ha & Hm)].
      * apply lookup_replicate in Hb as [? _]. done.
      * symmetry. apply hit_true. exists a. split; [done|].
        apply first_match_Some in Hm as (_ & jv & Hjv & Hc).
        rewrite Nat.sub_0_r in Hjv. congruence.
    + destruct (hit pred iv) eqn:Hh; [|done].
      apply hit_true in Hh as (a & Ha & Hc).
      assert (st.1 !! i = Some true) as Ht; [|congruence].
      apply H2. right. exists a. split; [done|].
      by eapply first_match_unambiguous.
  - apply lookup_ge_None. apply lookup_ge_None in Hiv. lia.
Qed.

Lemma get_anomaly_results_unambiguous pred targ :
  unambiguous pred targ →
  get_anomaly_results pred targ
  = (count (hit pred) targ,
     (Z.of_nat (length targ) - count (hit pred) targ)%Z,
     count (unmatched targ) pred).
Proof.
  intros Hu. pose proof (scan_found pred targ Hu) as Hf.
  destruct (get_anomaly_results_fn_fp pred targ) as (tp & Hr).
  rewrite Hr. unfold get_anomaly_results in Hr.
  destruct (scan targ pred) as [found fps]. simpl in Hf. subst found.
  injection Hr as Htp _ _. rewrite <- Htp.
  rewrite py_sum_ones, filter_true_map. reflexivity.
Qed.

Lemma count_ext_in {A} (f g : A → bool) (l : list A) :
  (∀ x, x ∈ l → f x = g x) → count f l = count g l.
Proof.
  intros H. unfold count. f_equal.
  induction l as [|x l IH]; [done|].
  rewrite !filter_cons. rewrite (H x) by left.
  destruct (decide (g x = true)); simpl; rewrite IH; try done;
    intros y Hy; apply H; by right.
Qed.

Lemma count_app {A} (f : A → bool) (l1 l2 : list A) :
  count f (l1 ++ l2) = (count f l1 + count f l2)%Z.
Proof. unfold count. rewrite filter_app, length_app. lia. Qed.

(** Pairwise disjoint intervals leave no index in two of them. *)
Lemma disjoint_unambiguous pred targ :
  (∀ i j iv jv, i ≠ j → targ !! i = Some iv → targ !! j = Some jv →
                (iv.2 < jv.1 ∨ jv.2 < iv.1)%Z) →
  unambiguous pred targ.
Proof.
  intros Hd a i j iv jv _ Hi Hj Hci Hcj.
  destruct (decide (i = j)) as [|Hne]; [done|]. exfalso.
  apply contains_bounds in Hci, Hcj.
  destruct (Hd i j iv jv Hne Hi Hj); lia.
Qed.

(** C1 (as amended).  Where no predicted index lies in two ground-truth
    intervals (as when the intervals do not overlap),
    [get_anomaly_results] returns [(tp, fn, fp)] with [tp] the number of
    intervals containing at least one predicted index, [fn] the number
    of intervals minus [tp] and [fp] the number of predicted indices
    contained in no interval; a further predicted index falling in an
    interval that already contains one changes nothing.  On ground truth
    [(10,20), (50,60)] and predictions [12, 15, 55, 70] the result is
    [(2, 0, 1)], and [get_anomaly_score] returns recall 1 and second
    ratio 2/3. *)
Theorem get_anomaly_results_counts (pred : list Z) (targ : list interval) :
  unambiguous pred targ →
  get_anomaly_results pred targ
  = (count (hit pred) targ,
     (Z.of_nat (length targ) - count (hit pred) targ)%Z,
     count (unmatched targ) pred)
  ∧ (∀ a iv, iv ∈ targ → contains iv a = true → hit pred iv = true →
       unambiguous (pred ++ [a]) targ →
       get_anomaly_results (pred ++ [a]) targ
       = get_anomaly_results pred targ)
  ∧ get_anomaly_results [12; 15; 55; 70]%Z [(10, 20); (50, 60)]%Z
    = (2, 0, 1)%Z
  ∧ ∃ recall ratio,
      get_anomaly_score [12; 15; 55; 70]%Z [(10, 20); (50, 60)]%Z
      = OK (recall, ratio)
      ∧ (recall == 1)%Q ∧ (ratio == 2 # 3)%Q.
Proof.
  intros Hu. split; [by apply get_anomaly_results_unambiguous|].
  split; [|split; [reflexivity|]].
  - intros a iv Hiv Hc Hh Hu'.
    rewrite (get_anomaly_results_unambiguous _ _ Hu').
    rewrite (get_anomaly_results_unambiguous _ _ Hu).
    assert (count (hit (pred ++ [a])) targ = count (hit pred) targ) as ->.
    { apply count_ext_in. intros jv Hjv. unfold hit.
      rewrite existsb_app. simpl. rewrite orb_false_r.
      destruct (contains jv a) eqn:Hcj; [|by rewrite orb_false_r].
      rewrite orb_true_r.
      apply list_elem_of_lookup_1 in Hiv as [i Hi].
      apply list_elem_of_lookup_1 in Hjv as [j Hj].
      assert (a ∈ pred ++ [a]) as Ha
        by (apply elem_of_app; right; by left).
      pose proof (Hu' a i j iv jv Ha Hi Hj Hc Hcj) as ->.
      assert (jv = iv) as -> by congruence. symmetry. exact Hh. }
    assert (count (unmatched targ) (pred ++ [a])
            = count (unmatched targ) pred) as ->; [|done].
    rewrite count_app. unfold count at 2. rewrite filter_cons.
    destruct (decide (unmatched targ a = true)) as [Hm|]; [|simpl; lia].
    exfalso. unfold unmatched in Hm. rewrite forallb_forall in Hm.
    apply list_elem_of_In in Hiv. specialize (Hm _ Hiv).
    rewrite Hc in Hm. done.
  - eexists _, _. split; [reflexivity|]. split; reflexivity.
Qed.

Lemma get_anomaly_results_counts_witness :
  unambiguous [12; 15; 55; 70]%Z [(10, 20); (50, 60)]%Z
  ∧ get_anomaly_results [12; 15; 55; 70]%Z [(10, 20); (50, 60)]%Z
    = (count (hit [12; 15; 55; 70]%Z) [(10, 20); (50, 60)]%Z,
       (2 - count (hit [12; 15; 55; 70]%Z) [(10, 20); (50, 60)]%Z)%Z,
       count (unmatched [(10, 20); (50, 60)]%Z) [12; 15; 55; 70]%Z).
Proof.
  assert (unambiguous [12; 15; 55; 70]%Z [(10, 20); (50, 60)]%Z) as Hu.
  { apply disjoint_unambiguous. intros i j iv jv Hne Hi Hj.
    destruct i as [|[|i]], j as [|[|j]]; simplify_eq/=; lia. }
  split; [exact Hu|].
  exact (proj1 (get_anomaly_results_counts _ _ Hu)).
Defined.

(** C1 as stated fails where intervals overlap: the index 7 lies in both
    [(0,10)] and [(5,15)], the search stops at the first, and one
    interval is reported found where two contain a predicted index. *)
Lemma get_anomaly_results_overlap :
  get_anomaly_results [7]%Z [(0, 10); (5, 15)]%Z = (1, 1, 0)%Z
  ∧ count (hit [7]%Z) [(0, 10); (5, 15)]%Z = 2%Z
  ∧ get_anomaly_results [7]%Z [(0, 10); (5, 15)]%Z
    ≠ (count (hit [7]%Z) [(0, 10); (5, 15)]%Z,
       (2 - count (hit [7]%Z) [(0, 10); (5, 15)]%Z)%Z,
       count (unmatched [(0, 10); (5, 15)]%Z) [7]%Z).
Proof. split; [reflexivity|]. split; [reflexivity|]. discriminate. Qed.

(** C2 (as amended).  With no prediction against the one interval
    [(10,20)], [get_anomaly_results] returns [(0, 1, 0)]; in
    [get_anomaly_score] the recall [0 / 1] evaluates to 0, the second
    ratio [0 / 0] raises [ZeroDivisionError], and the call raises that
    error instead of returning a pair. *)
Theorem get_anomaly_score_no_prediction :
  get_anomaly_results [] [(10, 20)]%Z = (0, 1, 0)%Z
  ∧ (∃ recall, py_truediv 0 (0 + 1) = OK recall ∧ (recall == 0)%Q)
  ∧ py_truediv 0 (0 + 0) = Err (ZeroDivisionError "division by zero")
  ∧ get_anomaly_score [] [(10, 20)]%Z
    = Err (ZeroDivisionError "division by zero").
Proof.
  split; [reflexivity|]. split; [|split; reflexivity].
  eexists. split; reflexivity.
Qed.

(** C2 as stated fails: the call returns no pair, so there is no recall
    component 0.0 and no second ratio defined as 0. *)
Lemma no_prediction_score_returns_nothing :
  ¬ ∃ recall ratio,
      get_anomaly_score [] [(10, 20)]%Z = OK (recall, ratio)
      ∧ (recall == 0)%Q.
Proof. intros (recall & ratio & H & _). discriminate H. Qed.

End EvaluatorFacts.

(** ** The normalizers *)

Module NormalizerFacts.

Local Open Scope Q_scope.

(** A fold of a choice between two values yields the start value or one
    of the list. *)
Lemma fold_left_choice (f : Q → Q → Q) (l : list Q) (x : Q) :
  (∀ a b, f a b = a ∨ f a b = b) →
  fold_left f l x = x ∨ fold_left f l x ∈ l.
Proof.
  intros Hf. revert x. induction l as [|y l IH]; intros x; [by left|].
  simpl. destruct (IH (f x y)) as [->|Hin].
  - destruct (Hf x y) as [->| ->]; [by left | right; by left].
  - right. by right.
Qed.

Lemma Qmax_choice a b : Qmax a b = a ∨ Qmax a b = b.
Proof.
  unfold Qmax, GenericMinMax.gmax. destruct (a ?= b); auto.
Qed.

Lemma Qmin_choice a b : Qmin a b = a ∨ Qmin a b = b.
Proof.
  unfold Qmin, GenericMinMax.gmin. destruct (a ?= b); auto.
Qed.

Lemma fold_left_Qmax_ge (l : list Q) (x : Q) :
  x <= fold_left Qmax l x ∧ ∀ y, y ∈ l → y <= fold_left Qmax l x.
Proof.
  revert x. induction l as [|z l IH]; intros x; simpl.
  - split; [apply Qle_refl|]. intros y Hy. by apply elem_of_nil in Hy.
  - destruct (IH (Qmax x z)) as [H1 H2]. split.
    + eapply Qle_trans; [apply Q.le_max_l | exact H1].
    + intros y Hy. apply elem_of_cons in Hy as [->|Hy]; [|by apply H2].
      eapply Qle_trans; [apply Q.le_max_r | exact H1].
Qed.

Lemma fold_left_Qmin_le (l : list Q) (x : Q) :
  fold_left Qmin l x <= x ∧ ∀ y, y ∈ l → fold_left Qmin l x <= y.
Proof.
  revert x. induction l as [|z l IH]; intros x; simpl.
  - split; [apply Qle_refl|]. intros y Hy. by apply elem_of_nil in Hy.
  - destruct (IH (Qmin x z)) as [H1 H2]. split.
    + eapply Qle_trans; [exact H1 | apply Q.le_min_l].
    + intros y Hy. apply elem_of_cons in Hy as [->|Hy]; [|by apply H2].
      eapply Qle_trans; [exact H1 | apply Q.le_min_r].
Qed.

(** Column [j] of a row-wise fold is the fold of column [j]. *)
Lemma fold_left_zip_with_lookup (f : Q → Q → Q) (rest : list (list Q))
    (r : list Q) (j : nat) (x : Q) :
  r !! j = Some x →
  Forall (λ row, length row = length r) rest →
  ∃ col, length col = length rest
    ∧ (∀ i, col !! i = rest !! i ≫= λ row, row !! j)
    ∧ fold_left (zip_with f) rest r !! j = Some (fold_left f col x).
Proof.
  revert r x. induction rest as [|row rest IH]; intros r x Hx Hall.
  - exists []. simpl. split; [done|]. split; [|done]. by intros i.
  - apply Forall_cons in Hall as [Hrow Hall].
    destruct (row !! j) as [y|] eqn:Hy.
    2:{ apply lookup_ge_None in Hy. apply lookup_lt_Some in Hx. lia. }
    destruct (IH (zip_with f r row) (f x y)) as (col & Hlen & Hcol & Hfold).
    + rewrite lookup_zip_with, Hx. simpl. by rewrite Hy.
    + rewrite length_zip_with_l_eq by done. exact Hall.
    + exists (y :: col). simpl. split; [by rewrite Hlen|]. split; [|done].
      intros [|i]; simpl; [by rewrite Hy | apply Hcol].
Qed.

(** A reduction along axis 0 of an array with at least one row. *)
Lemma reduce_axis0_lookup (f : Q → Q → Q) name (data : matrix) :
  rectangular data → rows data ≠ [] →
  ∃ v, reduce_axis0 f name data = OK v ∧ length v = ncols data
    ∧ ∀ j, (j < ncols data)%nat →
        ∃ x col, entry data 0 j = Some x
          ∧ (∀ i, col !! i = entry data (S i) j)
          ∧ v !! j = Some (fold_left f col x).
Proof.
  unfold rectangular, reduce_axis0, entry.
  destruct (rows data) as [|r rest] eqn:Hrows; [done|].
  intros Hrect _. apply Forall_cons in Hrect as [Hr Hrest].
  assert (Forall (λ row, length row = length r) rest) as Hsame.
  { eapply Forall_impl; [exact Hrest|]. simpl. intros. congruence. }
  eexists. split; [reflexivity|]. split.
  - clear Hrest Hrows. revert r Hr Hsame.
    induction rest as [|row rest IH]; intros r Hr Hsame; [done|].
    apply Forall_cons in Hsame as [Hrow Hsame]. simpl. apply IH.
    + by rewrite length_zip_with_l_eq.
    + rewrite length_zip_with_l_eq by done. exact Hsame.
  - intros j Hj.
    destruct (r !! j) as [x|] eqn:Hx.
    2:{ apply lookup_ge_None in Hx. lia. }
    destruct (fold_left_zip_with_lookup f rest r j x Hx Hsame)
      as (col & _ & Hcol & Hfold).
    exists x, col. simpl. rewrite Hx. done.
Qed.

(** [np.amax(data, axis=0)]: each component bounds its column from above
    and is one of its entries. *)
Lemma np_amax_spec (data : matrix) :
  rectangular data → rows data ≠ [] →
  ∃ v, np_amax data = OK v ∧ length v = ncols data
    ∧ ∀ j mx, v !! j = Some mx →
        (∀ i x, entry data i j = Some x → x <= mx)
        ∧ ∃ i, entry data i j = Some mx.
Proof.
  intros Hrect Hne.
  destruct (reduce_axis0_lookup Qmax "maximum" data Hrect Hne)
    as (v & Hv & Hlen & Hcols).
  exists v. split; [done|]. split; [done|]. intros j mx Hmx.
  assert (j < ncols data)%nat as Hj
    by (rewrite <- Hlen; by apply lookup_lt_Some in Hmx).
  destruct (Hcols j Hj) as (x & col & Hx & Hcol & Hfold).
  rewrite Hmx in Hfold. injection Hfold as ->.
  destruct (fold_left_Qmax_ge col x) as [H1 H2]. split.
  - intros [|i] y Hy.
    + rewrite Hx in Hy. injection Hy as <-. exact H1.
    + apply H2. apply list_elem_of_lookup. exists i. by rewrite Hcol.
  - destruct (fold_left_choice Qmax col x Qmax_choice) as [->|Hin].
    + by exists 0%nat.
    + apply list_elem_of_lookup in Hin as [i Hi]. exists (S i).
      by rewrite <- Hcol.
Qed.

(** [np.min(data, axis=0)]: likewise from below. *)
Lemma np_min_spec (data : matrix) :
  rectangular data → rows data ≠ [] →
  ∃ v, np_min data = OK v ∧ length v = ncols data
    ∧ ∀ j mn, v !! j = Some mn →
        (∀ i x, entry data i j = Some x → mn <= x)
        ∧ ∃ i, entry data i j = Some mn.
Proof.
  intros Hrect Hne.
  destruct (reduce_axis0_lookup Qmin "minimum" data Hrect Hne)
    as (v & Hv & Hlen & Hcols).
  exists v. split; [done|]. split; [done|]. intros j mn Hmn.
  assert (j < ncols data)%nat as Hj
    by (rewrite <- Hlen; by apply lookup_lt_Some in Hmn).
  destruct (Hcols j Hj) as (x & col & Hx & Hcol & Hfold).
  rewrite Hmn in Hfold. injection Hfold as ->.
  destruct (fold_left_Qmin_le col x) as [H1 H2]. split.
  - intros [|i] y Hy.
    + rewrite Hx in Hy. injection Hy as <-. exact H1.
    + apply H2. apply list_elem_of_lookup. exists i. by rewrite Hcol.
  - destruct (fold_left_choice Qmin col x Qmin_choice) as [->|Hin].
    + by exists 0%nat.
    + apply list_elem_of_lookup in Hin as [i Hi]. exists (S i).
      by rewrite <- Hcol.
Qed.

Lemma eps_pos : 0 < eps.
Proof. reflexivity. Qed.

(** Over the rationals the divisor is positive and the scaled value lies
    in [[0, 1)]. *)
Lemma scaled_bounds (x mn mx : Q) :
  mn <= x → x <= mx →
  0 < mx - mn + eps
  ∧ 0 <= (x - mn) / (mx - mn + eps)
  ∧ (x - mn) / (mx - mn + eps) < 1.
Proof.
  intros H1 H2. pose proof eps_pos as He.
  assert (0 < mx - mn + eps) as Hd by lra.
  split; [done|]. split.
  - apply Qle_shift_div_l; [done | lra].
  - apply Qlt_shift_div_r; [done | lra].
Qed.

Lemma broadcast_same (f : Q → Q → Q) (m : matrix) (v : list Q) :
  ncols m = length v →
  broadcast f m v = OK (Matrix (ncols m) (map (λ r, zip_with f r v) (rows m))).
Proof. intros H. unfold broadcast. by rewrite decide_True. Qed.

(** [(m - min_data) / (max_data - min_data + eps)], entry by entry. *)
Lemma scale_entries (m : matrix) (max_data min_data : list Q) :
  ncols m = length min_data → length max_data = length min_data →
  ∃ out,
    rbind (broadcast Qminus m min_data)
          (λ centred, broadcast Qdiv centred (divisor max_data min_data))
    = OK out
    ∧ ncols out = ncols m ∧ nrows out = nrows m
    ∧ ∀ i j x mx mn,
        entry m i j = Some x →
        max_data !! j = Some mx → min_data !! j = Some mn →
        entry out i j = Some ((x - mn) / (mx - mn + eps)).
Proof.
  intros Hm Hlen. rewrite broadcast_same by done. simpl.
  rewrite broadcast_same
    by (unfold divisor; simpl; rewrite length_zip_with_l_eq; congruence).
  eexists. split; [reflexivity|]. split; [done|].
  split; [unfold nrows; simpl; by rewrite !length_map|].
  intros i j x mx mn Hx Hmx Hmn. unfold entry in *. simpl.
  rewrite !list_lookup_fmap.
  destruct (rows m !! i) as [r|]; [|done]. simpl in *.
  rewrite !lookup_zip_with, Hx. simpl. rewrite Hmn. simpl.
  unfold divisor. rewrite lookup_zip_with, Hmx. simpl. rewrite Hmn. done.
Qed.

Lemma entry_rows_nonempty (m : matrix) i j x :
  entry m i j = Some x → rows m ≠ [].
Proof. unfold entry. by destruct (rows m). Qed.

Lemma entry_col_lt (m : matrix) i j x :
  rectangular m → entry m i j = Some x → (j < ncols m)%nat.
Proof.
  unfold rectangular, entry. intros Hrect Hx.
  destruct (rows m !! i) as [r|] eqn:Hr; [|done]. simpl in Hx.
  apply lookup_lt_Some in Hx.
  rewrite Forall_forall in Hrect.
  apply list_elem_of_lookup_2, list_elem_of_In in Hr.
  rewrite <- (Hrect r); [done|]. by apply list_elem_of_In.
Qed.

(** C3, as the code has it.  For a rectangular matrix and each of its
    entries [x], at row [i] of column [j]: [normalize_error] returns a
    matrix of the same shape whose entry there is
    [(x - mn) / (mx - mn + eps)], for [mn] and [mx] the least and the
    greatest entry of column [j]; the divisor is positive, the entry
    lies in the closed interval [[0, 1]], and it is 0 when the entries of
    the column are all equal.  (Entries finite and [mx - mn] within the
    float64 range; the bounds are the ones that rounding keeps.) *)
Theorem normalize_error_closed_range (data : matrix) (i j : nat) (x : Q) :
  rectangular data → entry data i j = Some x →
  ∃ out mx mn y,
    normalize_error data = OK out
    ∧ ncols out = ncols data ∧ nrows out = nrows data
    ∧ (∀ i' x', entry data i' j = Some x' → mn <= x' ∧ x' <= mx)
    ∧ (∃ i', entry data i' j = Some mx)
    ∧ (∃ i', entry data i' j = Some mn)
    ∧ 0 < mx - mn + eps
    ∧ entry out i j = Some y
    ∧ y = (x - mn) / (mx - mn + eps)
    ∧ 0 <= y ∧ y <= 1
    ∧ ((∀ i' x', entry data i' j = Some x' → x' == x) → y == 0).
Proof.
  intros Hrect Hx.
  pose proof (entry_rows_nonempty _ _ _ _ Hx) as Hne.
  pose proof (entry_col_lt _ _ _ _ Hrect Hx) as Hj.
  destruct (np_amax_spec data Hrect Hne) as (vmax & Hvmax & Lmax & Smax).
  destruct (np_min_spec data Hrect Hne) as (vmin & Hvmin & Lmin & Smin).
  destruct (scale_entries data vmax vmin) as (out & Hout & Hc & Hr & He);
    [congruence | congruence |].
  destruct (vmax !! j) as [mx|] eqn:Hmx.
  2:{ apply lookup_ge_None in Hmx. lia. }
  destruct (vmin !! j) as [mn|] eqn:Hmn.
  2:{ apply lookup_ge_None in Hmn. lia. }
  destruct (Smax j mx Hmx) as [Ub Amax].
  destruct (Smin j mn Hmn) as [Lb Amin].
  destruct (scaled_bounds x mn mx (Lb _ _ Hx) (Ub _ _ Hx)) as (Hd & H0 & H1).
  exists out, mx, mn, ((x - mn) / (mx - mn + eps)).
  split. { unfold normalize_error. rewrite Hvmax, Hvmin. exact Hout. }
  do 2 (split; [done|]).
  split. { intros i' x' Hx'. split; [by eapply Lb | by eapply Ub]. }
  do 3 (split; [done|]).
  split. { by apply He. }
  do 2 (split; [done|]).
  split. { by apply Qlt_le_weak. }
  intros Heq. destruct Amin as [i' Hi'].
  assert (x - mn == 0) as Hz by (rewrite (Heq _ _ Hi'); ring).
  unfold Qdiv. rewrite Hz. ring.
Qed.

Lemma normalize_error_closed_range_witness :
  ∃ out mx mn y,
    normalize_error (Matrix 2 [[1; 5]; [3; 5]]) = OK out
    ∧ entry out 1 0 = Some y
    ∧ y = (3 - mn) / (mx - mn + eps)
    ∧ 0 <= y ∧ y <= 1.
Proof.
  destruct (normalize_error_closed_range (Matrix 2 [[1; 5]; [3; 5]]) 1 0 3)
    as (out & mx & mn & y & H1 & _ & _ & _ & _ & _ & _ & H2 & H3 & H4 & H5 & _).
  - unfold rectangular. simpl. repeat constructor.
  - reflexivity.
  - exists out, mx, mn, y. auto.
Defined.

(** C3 as the spec words it fails over float64, on columns whose maximum
    exceeds the minimum.  On the column [[0, 1e12]] the second entry is
    exactly 1, not below it: [1e12 + eps] rounds to [1e12].  On the
    column [[-1e308, 1e308]] the range [max - min] overflows to infinity
    and the second entry, infinity by infinity, is NaN. *)
Lemma normalize_error_float64_one_and_nan :
  (∃ y, Float64.normalize_error Float64.wide_column
        = OK [[0%float]; [y]]
        ∧ y = 1%float ∧ PrimFloat.ltb y 1 = false)
  ∧ (∃ y, Float64.normalize_error Float64.overflowing_column
          = OK [[0%float]; [y]]
          ∧ PrimFloat.is_nan y = true).
Proof.
  split.
  - exists 1%float. split; [|split]; vm_compute; reflexivity.
  - exists PrimFloat.nan. split; vm_compute; reflexivity.
Qed.

(** C9.  For rectangular [pred] and [targ] of the same width, [targ]
    with at least one row, [normalize_data] returns two matrices of the
    shapes of [pred] and [targ] whose entries in column [j] are
    [(p - mn) / (mx - mn + eps)] and [(t - mn) / (mx - mn + eps)], for
    [mn] and [mx] the least and the greatest entry of column [j] of
    [targ]: one scale for both, so that differences are scaled by
    [1 / (mx - mn + eps)]; the second matrix is [normalize_error targ]. *)
Theorem normalize_data_scales (pred targ : matrix) :
  rectangular pred → rectangular targ →
  ncols pred = ncols targ → rows targ ≠ [] →
  ∃ norm_pred norm_targ max_data min_data,
    normalize_data pred targ = OK (norm_pred, norm_targ)
    ∧ np_amax targ = OK max_data ∧ np_min targ = OK min_data
    ∧ normalize_error targ = OK norm_targ
    ∧ ncols norm_pred = ncols pred ∧ nrows norm_pred = nrows pred
    ∧ ncols norm_targ = ncols targ ∧ nrows norm_targ = nrows targ
    ∧ ∀ j, (j < ncols targ)%nat →
        ∃ mx mn,
          max_data !! j = Some mx ∧ min_data !! j = Some mn
          ∧ (∀ i t, entry targ i j = Some t → mn <= t ∧ t <= mx)
          ∧ (∃ i, entry targ i j = Some mx)
          ∧ (∃ i, entry targ i j = Some mn)
          ∧ 0 < mx - mn + eps
          ∧ (∀ i p, entry pred i j = Some p →
               entry norm_pred i j = Some ((p - mn) / (mx - mn + eps)))
          ∧ (∀ i t, entry targ i j = Some t →
               entry norm_targ i j = Some ((t - mn) / (mx - mn + eps)))
          ∧ (∀ p t, (p - mn) / (mx - mn + eps) - (t - mn) / (mx - mn + eps)
                    == (p - t) / (mx - mn + eps)).
Proof.
  intros Hrp Hrt Hcols Hne.
  destruct (np_amax_spec targ Hrt Hne) as (vmax & Hvmax & Lmax & Smax).
  destruct (np_min_spec targ Hrt Hne) as (vmin & Hvmin & Lmin & Smin).
  destruct (scale_entries pred vmax vmin) as (np & Hnp & Hpc & Hpr & Hpe);
    [congruence | congruence |].
  destruct (scale_entries targ vmax vmin) as (nt & Hnt & Htc & Htr & Hte);
    [congruence | congruence |].
  exists np, nt, vmax, vmin.
  split.
  { unfold normalize_data. rewrite Hvmax, Hvmin. simpl.
    destruct (broadcast Qminus pred vmin) as [pc|e] eqn:Hpc1;
      [|discriminate Hnp].
    simpl in Hnp |- *. rewrite Hnp. simpl.
    destruct (broadcast Qminus targ vmin) as [tc|e] eqn:Htc1;
      [|discriminate Hnt].
    simpl in Hnt |- *. rewrite Hnt. reflexivity. }
  do 2 (split; [done|]).
  split. { unfold normalize_error. rewrite Hvmax, Hvmin. exact Hnt. }
  do 4 (split; [done|]).
  intros j Hj.
  destruct (vmax !! j) as [mx|] eqn:Hmx.
  2:{ apply lookup_ge_None in Hmx. lia. }
  destruct (vmin !! j) as [mn|] eqn:Hmn.
  2:{ apply lookup_ge_None in Hmn. lia. }
  destruct (Smax j mx Hmx) as [Ub [imax Amax]].
  destruct (Smin j mn Hmn) as [Lb Amin].
  destruct (scaled_bounds mx mn mx (Lb _ _ Amax) (Ub _ _ Amax))
    as (Hd & _ & _).
  exists mx, mn. do 2 (split; [done|]).
  split. { intros i t Ht. split; [by eapply Lb | by eapply Ub]. }
  split; [by exists imax|]. do 2 (split; [done|]).
  split. { intros i p Hp. by apply Hpe. }
  split. { intros i t Ht. by apply Hte. }
  intros p t. field. lra.
Qed.

Lemma normalize_data_scales_witness :
  ∃ norm_pred norm_targ,
    normalize_data (Matrix 1 [[2]; [4]]) (Matrix 1 [[1]; [3]])
    = OK (norm_pred, norm_targ)
    ∧ normalize_error (Matrix 1 [[1]; [3]]) = OK norm_targ.
Proof.
  destruct (normalize_data_scales (Matrix 1 [[2]; [4]]) (Matrix 1 [[1]; [3]]))
    as (norm_pred & norm_targ & _ & _ & H1 & _ & _ & H2 & _).
  - unfold rectangular. simpl. repeat constructor.
  - unfold rectangular. simpl. repeat constructor.
  - reflexivity.
  - simpl. discriminate.
  - exists norm_pred, norm_targ. auto.
Defined.

End NormalizerFacts.

(** ** The aggregator *)

Module AggregatorFacts.

(** One file: every model of the file is stacked under what the result
    holds for it. *)
Lemma concat_datafile_stack (errors : gmap string (gmap string matrix))
    (r0 : gmap string matrix) (f : string) (error : gmap string matrix) :
  errors !! f = Some error →
  (∀ model r e, r0 !! model = Some r → error !! model = Some e →
                ncols r = ncols e) →
  ∃ r1, concat_datafile errors r0 f = OK r1
    ∧ ∀ model, r1 !! model = stack (r0 !! model) (error !! model).
Proof.
  intros Hf. unfold concat_datafile. rewrite Hf. clear Hf.
  apply (map_fold_weak_ind (λ acc (m : gmap string matrix),
    (∀ model r e, r0 !! model = Some r → m !! model = Some e →
                  ncols r = ncols e) →
    ∃ r1, acc = OK r1
      ∧ ∀ model, r1 !! model = stack (r0 !! model) (m !! model))).
  - intros _. exists r0. split; [done|]. intros model.
    rewrite lookup_empty. by destruct (r0 !! model).
  - intros i x m acc Hi IH Hcompat.
    destruct IH as (r1 & -> & Hr1).
    { intros model r e Hr He. apply (Hcompat model r e Hr).
      rewrite lookup_insert_ne; [done|]. intros ->. congruence. }
    simpl. unfold concat_model.
    pose proof (Hr1 i) as Hr1i. rewrite Hi in Hr1i.
    destruct (r0 !! i) as [r|] eqn:Hr0; simpl in Hr1i; rewrite Hr1i.
    + assert (ncols r = ncols x) as Hw
        by (apply (Hcompat i r x Hr0); by rewrite lookup_insert_eq).
      unfold np_concatenate. rewrite decide_True by done. simpl.
      eexists. split; [reflexivity|]. intros model.
      destruct (decide (i = model)) as [<-|Hne].
      * rewrite !lookup_insert_eq, Hr0. done.
      * rewrite !lookup_insert_ne by done. apply Hr1.
    + eexists. split; [reflexivity|]. intros model.
      destruct (decide (i = model)) as [<-|Hne].
      * rewrite !lookup_insert_eq, Hr0. done.
      * rewrite !lookup_insert_ne by done. apply Hr1.
Qed.

Lemma stack_ncols acc b m :
  stack acc b = Some m →
  (∃ r, acc = Some r ∧ ncols m = ncols r) ∨ (acc = None ∧ b = Some m).
Proof.
  destruct acc as [r|], b as [e|]; simpl; intros [= <-]; eauto.
Qed.

(** The loop over the files, from a result [r0]. *)
Lemma concat_loop_stack (errors : gmap string (gmap string matrix))
    (datafiles : list string) (r0 : gmap string matrix) :
  (∀ f, f ∈ datafiles → is_Some (errors !! f)) →
  equal_width errors →
  (∀ model r f e, r0 !! model = Some r → f ∈ datafiles →
                  block errors model f = Some e → ncols r = ncols e) →
  ∃ r, concat_loop errors datafiles r0 = OK r
    ∧ ∀ model, r !! model
               = fold_left (λ acc b, stack acc (Some b))
                           (blocks errors model datafiles) (r0 !! model).
Proof.
  intros Hknown Hw. revert r0 Hknown.
  induction datafiles as [|f rest IH]; intros r0 Hknown Hcompat.
  - exists r0. split; [done|]. by intros model.
  - destruct (Hknown f) as [error Herr]; [by left|].
    destruct (concat_datafile_stack errors r0 f error Herr)
      as (r1 & Hr1 & Hlk).
    { intros model r e Hr He. apply (Hcompat model r f e Hr); [by left|].
      unfold block. by rewrite Herr. }
    destruct (IH r1) as (r & Hr & Hres).
    { intros g Hg. apply Hknown. by right. }
    { intros model r g e Hr Hg He. rewrite Hlk in Hr.
      apply stack_ncols in Hr as [(r' & Hr' & ->)|[_ Hb]].
      - apply (Hcompat model r' g e Hr'); [by right | done].
      - apply (Hw model f g r e); [|done]. unfold block. by rewrite Herr. }
    exists r. split; [simpl; by rewrite Hr1|].
    intros model. rewrite Hres, Hlk. unfold blocks. simpl.
    unfold block at 2. rewrite Herr. simpl.
    destruct (error !! model) as [e|]; simpl; [done|].
    by destruct (r0 !! model).
Qed.

(** Stacking blocks under a first one appends their rows. *)
Lemma fold_stack_rows (bs : list matrix) (a : matrix) :
  ∃ m, fold_left (λ acc b, stack acc (Some b)) bs (Some a) = Some m
    ∧ ncols m = ncols a
    ∧ rows m = rows a ++ concat (rows <$> bs).
Proof.
  revert a. induction bs as [|b bs IH]; intros a; simpl.
  - exists a. by rewrite app_nil_r.
  - destruct (IH (Matrix (ncols a) (rows a ++ rows b)))
      as (m & Hm & Hc & Hr).
    exists m. split; [done|]. split; [done|].
    rewrite Hr. simpl. by rewrite app_assoc.
Qed.

Lemma concat_all_datafiles_stack
    (errors : gmap string (gmap string matrix)) (datafiles : list string) :
  (∀ f, f ∈ datafiles → is_Some (errors !! f)) →
  equal_width errors →
  ∃ r, concat_all_datafiles errors datafiles = OK r
    ∧ ∀ model,
        match blocks errors model datafiles with
        | [] => r !! model = None
        | b :: bs =>
            ∃ m, r !! model = Some m ∧ ncols m = ncols b
              ∧ rows m = concat (rows <$> b :: bs)
        end.
Proof.
  intros Hknown Hw.
  destruct (concat_loop_stack errors datafiles ∅ Hknown Hw)
    as (r & Hr & Hres).
  { intros model r f e Hr. by rewrite lookup_empty in Hr. }
  exists r. split; [done|]. intros model. rewrite Hres, lookup_empty.
  destruct (blocks errors model datafiles) as [|b bs]; [done|].
  simpl. destruct (fold_stack_rows bs b) as (m & Hm & Hc & Hrows).
  exists m. done.
Qed.

(** C7.  Where every listed file is a key of [errors] and the matrices
    of one model have one width, [concat_all_datafiles] returns a
    mapping that holds, for each model, the matrix whose rows are the
    rows of the model's matrices in the listed files, each block in its
    own order and the blocks in the order of the list (no entry for a
    model that no listed file has); for a permutation of the list the
    blocks are those of the permuted list, a permutation of the blocks. *)
Theorem concat_all_datafiles_blocks
    (errors : gmap string (gmap string matrix)) (datafiles : list string) :
  (∀ f, f ∈ datafiles → is_Some (errors !! f)) →
  equal_width errors →
  (∃ r, concat_all_datafiles errors datafiles = OK r
     ∧ ∀ model,
         match blocks errors model datafiles with
         | [] => r !! model = None
         | b :: bs =>
             ∃ m, r !! model = Some m ∧ ncols m = ncols b
               ∧ rows m = concat (rows <$> b :: bs)
         end)
  ∧ ∀ datafiles', datafiles' ≡ₚ datafiles →
      ∃ r', concat_all_datafiles errors datafiles' = OK r'
        ∧ ∀ model,
            blocks errors model datafiles' ≡ₚ blocks errors model datafiles
            ∧ match blocks errors model datafiles' with
              | [] => r' !! model = None
              | b :: bs =>
                  ∃ m, r' !! model = Some m ∧ ncols m = ncols b
                    ∧ rows m = concat (rows <$> b :: bs)
              end.
Proof.
  intros Hknown Hw. split; [by apply concat_all_datafiles_stack|].
  intros datafiles' Hperm.
  destruct (concat_all_datafiles_stack errors datafiles') as (r' & Hr' & Hres).
  { intros f Hf. apply Hknown. by rewrite <- Hperm. }
  { done. }
  exists r'. split; [done|]. intros model. split; [|apply Hres].
  unfold blocks. by rewrite Hperm.
Qed.

Lemma example_errors_block model f e :
  block example_errors model f = Some e → ncols e = 1.
Proof.
  unfold block, example_errors. intros H.
  destruct (decide (f = "a")) as [->|Ha].
  - rewrite lookup_insert_eq in H. simpl in H.
    apply lookup_singleton_Some in H as [_ <-]. done.
  - rewrite lookup_insert_ne in H by done.
    destruct (decide (f = "b")) as [->|Hb].
    + rewrite lookup_insert_eq in H. simpl in H.
      apply lookup_singleton_Some in H as [_ <-]. done.
    + rewrite lookup_insert_ne, lookup_empty in H by done. done.
Qed.

Lemma concat_all_datafiles_blocks_witness :
  ∃ r m, concat_all_datafiles example_errors ["a"; "b"] = OK r
    ∧ r !! "m" = Some m
    ∧ rows m = [[1]; [2]; [3]]%Q.
Proof.
  destruct (concat_all_datafiles_blocks example_errors ["a"; "b"])
    as [(r & Hr & Hm) _].
  - intros f Hf. unfold example_errors.
    apply elem_of_cons in Hf as [->|Hf]; [by rewrite lookup_insert_eq|].
    apply elem_of_cons in Hf as [->|Hf]; [|by apply elem_of_nil in Hf].
    rewrite lookup_insert_ne, lookup_insert_eq; done.
  - intros model f1 f2 e1 e2 H1 H2.
    apply example_errors_block in H1, H2. congruence.
  - specialize (Hm "m").
    assert (blocks example_errors "m" ["a"; "b"]
            = [Matrix 1 [[1]; [2]]%Q; Matrix 1 [[3]]%Q]) as Hb
      by (vm_compute; reflexivity).
    rewrite Hb in Hm. destruct Hm as (m & Hm & _ & Hrows).
    exists r, m. done.
Defined.

End AggregatorFacts.

(** ** The policy *)

Module PolicyFacts.

Section Generic.
Context {model : Type}.
Implicit Types (self : AnomalyParameters model) (h : handler model).

Lemma preamble_OK self error conv ids error' error_norm :
  preamble self error = OK (conv, ids, error', error_norm) →
  smoothing_kernel (smooth_factor self) = OK conv
  ∧ col_ids self = OK ids
  ∧ take_cols error ids = OK error'
  ∧ normalize_error (np_absolute error') = OK error_norm.
Proof.
  unfold preamble.
  destruct (smoothing_kernel _) as [c|] eqn:H1; simpl; [|discriminate].
  destruct (col_ids self) as [i|] eqn:H2; simpl; [|discriminate].
  destruct (take_cols error i) as [e|] eqn:H3; simpl; [|discriminate].
  destruct (normalize_error (np_absolute e)) as [n|] eqn:H4; simpl;
    [|discriminate].
  intros [= <- <- <- <-]. done.
Qed.

(** A failure before the dispatch is the failure of the call. *)
Lemma compute_anomalies_preamble_Err self error display e :
  preamble self error = Err e →
  compute_anomalies self error display = Raise e.
Proof. intros H. unfold compute_anomalies. by rewrite H. Qed.

Lemma not_available method_ :
  method_ ∉ available_methods →
  String.eqb method_ "threshold_norm" = false
  ∧ String.eqb method_ "gaussian" = false
  ∧ String.eqb method_ "peaks" = false
  ∧ String.eqb method_ "votes" = false
  ∧ String.eqb method_ "threshold" = false.
Proof.
  unfold available_methods. rewrite !not_elem_of_cons, !String.eqb_neq.
  tauto.
Qed.

Lemma compute_anomalies_unknown self error display conv ids error' error_norm :
  method self ∉ available_methods →
  preamble self error = OK (conv, ids, error', error_norm) →
  compute_anomalies self error display
  = Raise (ValueError (unknown_method_message (method self))).
Proof.
  intros Hm Hp. apply not_available in Hm as (H1 & H2 & H3 & H4 & H5).
  unfold compute_anomalies. rewrite Hp. simpl.
  by rewrite H1, H2, H3, H4, H5.
Qed.

Lemma compute_anomalies_threshold self error display conv ids error' error_norm :
  method self = "threshold" →
  preamble self error = OK (conv, ids, error', error_norm) →
  compute_anomalies self error display
  = Call (Sum_conv_error error_norm conv) (λ summed,
      Ret (np_where_gt (map (λ x, np_div_len x (length ids)) summed)
                       (threshold self),
           Some (map (λ x, np_div_len x (length ids)) summed), None)).
Proof.
  intros Hm Hp. unfold compute_anomalies. rewrite Hp, Hm. reflexivity.
Qed.

(** The model-based methods: the stored model is consulted as it is;
    without one, a new model is fit on the matrix at hand. *)
Lemma compute_anomalies_model self error display conv ids error' error_norm
    (fit_gauss : option bool) :
  (method self = "threshold_norm" ∧ fit_gauss = None)
  ∨ (method self = "gaussian" ∧ fit_gauss = Some true) →
  preamble self error = OK (conv, ids, error', error_norm) →
  compute_anomalies self error display
  = match err_norm_model self with
    | Some m =>
        Call (Model_anomaly_dates m error' (threshold self) conv display) Ret
    | None =>
        Call ErrorNormalizationModel (λ m,
        Call (Model_fit m error' conv fit_gauss display) (λ fitted,
        Call (Model_anomaly_dates fitted error' (threshold self) conv display)
             Ret))
    end.
Proof.
  intros Hm Hp. unfold compute_anomalies, model_or_fit. rewrite Hp.
  destruct Hm as [[-> ->]|[-> ->]]; simpl;
    by destruct (err_norm_model self).
Qed.

Lemma compute_anomalies_peaks self error display conv ids error' error_norm :
  method self = "peaks" →
  preamble self error = OK (conv, ids, error', error_norm) →
  compute_anomalies self error display
  = Call (Anomaly_dates_peaks error_norm (n_anomalies self) conv
            (peak_width self)) Ret.
Proof.
  intros Hm Hp. unfold compute_anomalies. rewrite Hp, Hm. reflexivity.
Qed.

(** [AnomalyParameters.fit] never passes [fit_gauss], whatever the
    method. *)
Lemma fit_calls self error conv ids error' :
  smoothing_kernel (smooth_factor self) = OK conv →
  col_ids self = OK ids → take_cols error ids = OK error' →
  fit self error
  = Call ErrorNormalizationModel (λ m,
    Call (Model_fit m error' conv None true) (λ fitted,
    Ret (set_err_norm_model self fitted))).
Proof.
  intros H1 H2 H3. unfold fit.
  rewrite H1. simpl. rewrite H2. simpl. rewrite H3. reflexivity.
Qed.

End Generic.

Local Open Scope Q_scope.

Lemma np_gt_exceeds x t : np_gt x t = true ↔ exceeds x t.
Proof.
  destruct x as [q| | |]; simpl; try done.
  rewrite negb_true_iff, <- not_true_iff_false, Qle_bool_iff.
  split; [apply Qnot_le_lt | apply Qlt_not_le].
Qed.

Lemma exceeds_mono x t1 t2 : t1 <= t2 → exceeds x t2 → exceeds x t1.
Proof.
  destruct x as [q| | |]; simpl; try done.
  intros H1 H2. by eapply Qle_lt_trans.
Qed.

Lemma np_where_gt_from_elem k s t i :
  i ∈ np_where_gt_from k s t
  ↔ (k ≤ i)%nat ∧ ∃ x, s !! (i - k)%nat = Some x ∧ exceeds x t.
Proof.
  revert k. induction s as [|y s IH]; intros k; simpl.
  - split; [intros H; by apply elem_of_nil in H | by intros (_ & x & ? & _)].
  - assert (i ∈ np_where_gt_from (S k) s t
            ↔ (k < i)%nat ∧ ∃ x, (y :: s) !! (i - k)%nat = Some x
                                 ∧ exceeds x t) as Hrest.
    { rewrite IH. split; intros (Hle & x & Hx & Hg).
      - split; [lia|]. exists x. split; [|done].
        replace (i - k)%nat with (S (i - S k)) by lia. done.
      - split; [lia|]. exists x. split; [|done].
        replace (i - k)%nat with (S (i - S k)) in Hx by lia. done. }
    destruct (np_gt y t) eqn:Hy.
    + rewrite elem_of_cons, Hrest. split.
      * intros [->|(Hlt & x & Hx & Hg)].
        -- split; [lia|]. exists y. rewrite Nat.sub_diag.
           split; [done | by apply np_gt_exceeds].
        -- split; [lia|]. by exists x.
      * intros (Hle & x & Hx & Hg).
        destruct (decide (i = k)) as [->|Hne]; [by left|].
        right. split; [lia|]. by exists x.
    + rewrite Hrest. split.
      * intros (Hlt & x & Hx & Hg). split; [lia|]. by exists x.
      * intros (Hle & x & Hx & Hg).
        destruct (decide (i = k)) as [->|Hne].
        -- rewrite Nat.sub_diag in Hx. injection Hx as <-.
           apply np_gt_exceeds in Hg. congruence.
        -- split; [lia|]. by exists x.
Qed.

Lemma np_where_gt_elem s t i :
  i ∈ np_where_gt s t ↔ ∃ x, s !! i = Some x ∧ exceeds x t.
Proof.
  unfold np_where_gt. rewrite np_where_gt_from_elem, Nat.sub_0_r.
  split; [by intros [_ H] | intros H; split; [lia | done]].
Qed.

Lemma np_where_gt_from_length k s t1 t2 :
  t1 <= t2 →
  (length (np_where_gt_from k s t2) ≤ length (np_where_gt_from k s t1))%nat.
Proof.
  intros Ht. revert k. induction s as [|y s IH]; intros k; simpl; [done|].
  specialize (IH (S k)).
  destruct (np_gt y t2) eqn:H2.
  - assert (np_gt y t1 = true) as ->.
    { apply np_gt_exceeds. eapply exceeds_mono; [exact Ht|].
      by apply np_gt_exceeds. }
    simpl. lia.
  - destruct (np_gt y t1); simpl; lia.
Qed.

(** C4.  With the [threshold] method, on one error matrix, label list
    and smoothing window, and whatever [ano.sum_conv_error] returns: for
    thresholds [t1 <= t2] the two calls fail alike or both return, the
    anomalies at [t2] are among those at [t1] and no more numerous, and
    the flagged steps are exactly the steps where the summed trace
    divided by the number of columns strictly exceeds the threshold:
    with [n > 0] columns a finite sum [q] gives the trace entry [q / n]
    and is flagged exactly when [t < q / n]; without columns the
    division by zero leaves an infinity or a NaN, flagged exactly when
    [q] is positive.  The trace has one entry for each sum, and
    [n_anomalies] plays no part. *)
Theorem threshold_monotone {model : Type} (h : handler model)
    (self : AnomalyParameters model) (error : matrix) (display : bool)
    (t1 t2 : Q) :
  method self = "threshold" → t1 <= t2 →
  (∀ n, compute_anomalies (set_n_anomalies self n) error display
        = compute_anomalies self error display)
  ∧ match run h (compute_anomalies (set_threshold self t1) error display),
          run h (compute_anomalies (set_threshold self t2) error display)
    with
    | OK (a1, s1, _), OK (a2, s2, _) =>
        a2 ⊆ a1 ∧ (length a2 ≤ length a1)%nat
        ∧ ∃ conv ids error' error_norm summed trace,
            preamble self error = OK (conv, ids, error', error_norm)
            ∧ h _ (Sum_conv_error error_norm conv) = OK summed
            ∧ trace = map (λ x, np_div_len x (length ids)) summed
            ∧ s1 = Some trace ∧ s2 = Some trace
            ∧ (∀ i, i ∈ a1 ↔ ∃ x, trace !! i = Some x ∧ exceeds x t1)
            ∧ (∀ i, i ∈ a2 ↔ ∃ x, trace !! i = Some x ∧ exceeds x t2)
            ∧ length trace = length summed
            ∧ (∀ i q, (0 < length ids)%nat →
                 summed !! i = Some (Finite q) →
                 trace !! i
                 = Some (Finite (q / inject_Z (Z.of_nat (length ids))))
                 ∧ (i ∈ a1 ↔ t1 < q / inject_Z (Z.of_nat (length ids)))
                 ∧ (i ∈ a2 ↔ t2 < q / inject_Z (Z.of_nat (length ids))))
            ∧ (∀ i q, length ids = 0%nat →
                 summed !! i = Some (Finite q) →
                 (i ∈ a1 ↔ 0 < q) ∧ (i ∈ a2 ↔ 0 < q))
    | Err e1, Err e2 => e1 = e2
    | _, _ => False
    end.
Proof.
  intros Hm Ht. split.
  { intros n. unfold compute_anomalies.
    change (preamble (set_n_anomalies self n) error)
      with (preamble self error).
    destruct (preamble self error) as [[[[conv ids] e'] en]|e]; [|done].
    cbn [lift pbind].
    change (method (set_n_anomalies self n)) with (method self).
    rewrite Hm. reflexivity. }
  destruct (preamble self error) as [[[[conv ids] e'] en]|e] eqn:Hp.
  - rewrite (compute_anomalies_threshold (set_threshold self t1) error
               display conv ids e' en Hm Hp).
    rewrite (compute_anomalies_threshold (set_threshold self t2) error
               display conv ids e' en Hm Hp).
    cbn [run].
    destruct (h _ (Sum_conv_error en conv)) as [summed|e] eqn:Hh; [|done].
    cbn [threshold set_threshold].
    set (trace := map (λ x, np_div_len x (length ids)) summed).
    split; [|split].
    + intros i. rewrite !np_where_gt_elem.
      intros (x & Hx & Hg). exists x. split; [done|].
      by eapply exceeds_mono.
    + by apply np_where_gt_from_length.
    + exists conv, ids, e', en, summed, trace.
      do 5 (split; [done|]).
      split; [intros i; apply np_where_gt_elem|].
      split; [intros i; apply np_where_gt_elem|].
      split; [apply length_map|].
      split.
      * intros i q Hn Hq.
        assert (trace !! i
                = Some (Finite (q / inject_Z (Z.of_nat (length ids)))))
          as Htr.
        { unfold trace. rewrite list_lookup_fmap, Hq. simpl.
          by destruct (length ids); [lia|]. }
        split; [exact Htr|].
        rewrite !np_where_gt_elem, Htr.
        split; (split; [by intros (x & [= <-] & Hg) | intros Hg; by eexists]).
      * intros i q Hn Hq.
        rewrite !np_where_gt_elem.
        unfold trace. rewrite list_lookup_fmap, Hq, Hn. simpl.
        rewrite Qgt_alt.
        split; (split;
          [ intros (x & [= <-] & Hg); by destruct (q ?= 0)
          | intros ->; by eexists ]).
  - rewrite (compute_anomalies_preamble_Err (set_threshold self t1) _ _ e Hp).
    rewrite (compute_anomalies_preamble_Err (set_threshold self t2) _ _ e Hp).
    done.
Qed.

Lemma threshold_monotone_witness :
  1 # 4 <= 1 # 2
  ∧ run ano_spec (compute_anomalies (set_threshold two_label_params (1 # 4))
                    two_column_error false)
    = OK ([1%nat],
          Some [Finite (0 # 320003200008);
                Finite (25600384001920003200000 # 51201024007680025600032)],
          None)
  ∧ run ano_spec (compute_anomalies (set_threshold two_label_params (1 # 2))
                    two_column_error false)
    = OK ([],
          Some [Finite (0 # 320003200008);
                Finite (25600384001920003200000 # 51201024007680025600032)],
          None)
  ∧ ([] : list nat) ⊆ [1%nat]
  ∧ (1%nat ∈ [1%nat]
     ↔ 1 # 4 < (25600384001920003200000 # 25600512003840012800016)
               / inject_Z 2)
  ∧ (1%nat ∈ ([] : list nat)
     ↔ 1 # 2 < (25600384001920003200000 # 25600512003840012800016)
               / inject_Z 2).
Proof.
  assert (1 # 4 <= 1 # 2) as Ht by (unfold Qle; simpl; lia).
  split; [exact Ht|].
  pose proof (threshold_monotone ano_spec two_label_params
                two_column_error false (1 # 4) (1 # 2) eq_refl Ht) as [_ H].
  assert (run ano_spec (compute_anomalies
                          (set_threshold two_label_params (1 # 4))
                          two_column_error false)
    = OK ([1%nat],
          Some [Finite (0 # 320003200008);
                Finite (25600384001920003200000 # 51201024007680025600032)],
          None)) as E1 by (vm_compute; reflexivity).
  assert (run ano_spec (compute_anomalies
                          (set_threshold two_label_params (1 # 2))
                          two_column_error false)
    = OK ([],
          Some [Finite (0 # 320003200008);
                Finite (25600384001920003200000 # 51201024007680025600032)],
          None)) as E2 by (vm_compute; reflexivity).
  rewrite E1, E2 in H.
  destruct H as (Hsub & _ & conv & ids & e' & en & summed & trace
                 & Hp & Hh & _ & _ & _ & _ & _ & _ & Hfin & _).
  split; [exact E1|]. split; [exact E2|]. split; [exact Hsub|].
  assert (preamble two_label_params two_column_error
          = OK ([1 # 2; 1 # 2], [0%nat; 1%nat], two_column_error,
                Matrix 2 [[0 # 200001; 0 # 200001];
                          [200000 # 200001; 200000 # 200001]])) as Hp'
    by (vm_compute; reflexivity).
  rewrite Hp' in Hp. injection Hp as <- <- <- <-.
  assert (summed
          = [Finite (0 # 160001600004);
             Finite (25600384001920003200000 # 25600512003840012800016)])
    as ->.
  { vm_compute in Hh. by injection Hh as <-. }
  destruct (Hfin 1%nat (25600384001920003200000 # 25600512003840012800016))
    as (_ & H1 & H2); [simpl; lia | reflexivity |].
  split; [exact H1 | exact H2].
Defined.

(** C5, the defect.  With the [gaussian] method, [AnomalyParameters.fit]
    calls the model's [fit] without [fit_gauss] (so in the default,
    non-Gaussian mode), the fitted model is stored, and [compute_anomalies]
    then consults it without fitting again; only without a stored model
    is the model fit with [fit_gauss = True]. *)
Theorem gaussian_prefit_mode :
  ∃ fitted_self,
    calls ano_spec (fit (example_params "gaussian") example_error)
    = [LogNew; LogFit example_error [1 # 2; 1 # 2] None true]
    ∧ run ano_spec (fit (example_params "gaussian") example_error)
      = OK fitted_self
    ∧ method fitted_self = "gaussian"
    ∧ err_norm_model fitted_self = Some (Some false)
    ∧ calls ano_spec (compute_anomalies fitted_self example_error false)
      = [LogAnomalyDates example_error (1 # 4) [1 # 2; 1 # 2] false]
    ∧ calls ano_spec (compute_anomalies (example_params "gaussian")
                        example_error false)
      = [LogNew; LogFit example_error [1 # 2; 1 # 2] (Some true) false;
         LogAnomalyDates example_error (1 # 4) [1 # 2; 1 # 2] false].
Proof.
  eexists. split; [vm_compute; reflexivity|].
  split; [vm_compute; reflexivity|].
  repeat split; vm_compute; reflexivity.
Qed.

(** C6 (as amended).  With the [threshold_norm] method the matrix handed
    to the model, to [fit] where no model is stored and to
    [anomaly_dates] in both cases, is the error matrix restricted to the
    columns of the labels that are not ignored, as it is: the normalized
    matrix is computed and left aside. *)
Theorem threshold_norm_model_input {model : Type} (h : handler model)
    (self : AnomalyParameters model) (error : matrix) (display : bool)
    (conv : list Q) (ids : list nat) (error' error_norm : matrix) :
  method self = "threshold_norm" →
  preamble self error = OK (conv, ids, error', error_norm) →
  col_ids self = OK ids ∧ take_cols error ids = OK error'
  ∧ normalize_error (np_absolute error') = OK error_norm
  ∧ compute_anomalies self error display
    = match err_norm_model self with
      | Some m =>
          Call (Model_anomaly_dates m error' (threshold self) conv display)
               Ret
      | None =>
          Call ErrorNormalizationModel (λ m,
          Call (Model_fit m error' conv None display) (λ fitted,
          Call (Model_anomaly_dates fitted error' (threshold self) conv
                  display) Ret))
      end
  ∧ ∀ m, m ∈ model_matrices (calls h (compute_anomalies self error display))
         → m = error'.
Proof.
  intros Hm Hp. destruct (preamble_OK _ _ _ _ _ _ Hp) as (_ & H2 & H3 & H4).
  do 3 (split; [done|]).
  pose proof (compute_anomalies_model self error display conv ids error'
                error_norm None (or_introl (conj Hm eq_refl)) Hp) as Heq.
  split; [exact Heq|]. rewrite Heq. intros m.
  destruct (err_norm_model self) as [m0|]; cbn [calls erase].
  - destruct (h _ _); simpl; rewrite list_elem_of_singleton; done.
  - destruct (h _ ErrorNormalizationModel) as [m0|]; simpl;
      [|intros H; by apply elem_of_nil in H].
    destruct (h _ (Model_fit _ _ _ _ _)) as [m1|]; simpl.
    + destruct (h _ _); simpl; rewrite !elem_of_cons, elem_of_nil; tauto.
    + rewrite list_elem_of_singleton. done.
Qed.

Lemma threshold_norm_model_input_witness :
  preamble (example_params "threshold_norm") example_error
  = OK ([1 # 2; 1 # 2], [0%nat], example_error,
        Matrix 1 [[0 # 200001]; [200000 # 200001]])
  ∧ take_cols example_error [0%nat] = OK example_error
  ∧ compute_anomalies (example_params "threshold_norm") example_error false
    = Call ErrorNormalizationModel (λ m,
      Call (Model_fit m example_error [1 # 2; 1 # 2] None false) (λ fitted,
      Call (Model_anomaly_dates fitted example_error (1 # 4) [1 # 2; 1 # 2]
              false) Ret)).
Proof.
  assert (preamble (example_params "threshold_norm") example_error
          = OK ([1 # 2; 1 # 2], [0%nat], example_error,
                Matrix 1 [[0 # 200001]; [200000 # 200001]])) as Hp
    by (vm_compute; reflexivity).
  split; [exact Hp|].
  destruct (threshold_norm_model_input ano_spec
              (example_params "threshold_norm") example_error false
              [1 # 2; 1 # 2] [0%nat] example_error
              (Matrix 1 [[0 # 200001]; [200000 # 200001]]) eq_refl Hp)
    as (_ & H3 & _ & Heq & _).
  split; [exact H3 | exact Heq].
Defined.

(** C6 as stated fails: on the matrix with the entries 2 and -4 the model
    is handed that matrix twice, entry -4 included, where the normalized
    absolute matrix has an entry in [[0, 1)] at that place. *)
Lemma threshold_norm_passes_raw_error :
  ∃ error_norm y,
    normalize_error (np_absolute example_error) = OK error_norm
    ∧ model_matrices
        (calls ano_spec (compute_anomalies (example_params "threshold_norm")
                           example_error false))
      = [example_error; example_error]
    ∧ entry example_error 1 0 = Some (-4)
    ∧ entry error_norm 1 0 = Some y
    ∧ 0 <= y ∧ y < 1
    ∧ example_error ≠ error_norm.
Proof.
  eexists _, _. split; [vm_compute; reflexivity|].
  split; [vm_compute; reflexivity|].
  split; [reflexivity|].
  split; [vm_compute; reflexivity|].
  split; [unfold Qle; simpl; lia|].
  split; [unfold Qlt; simpl; lia|].
  discriminate.
Qed.

(** C8 (as amended).  With a method outside the supported set,
    [compute_anomalies] raises, whatever its arguments, and calls
    nothing of [ano]; what it raises is the error naming the method and
    listing the supported ones, unless the steps before the dispatch
    (kernel, column selection, normalization) fail, and then it is their
    error. *)
Theorem unknown_method_raises {model : Type}
    (self : AnomalyParameters model) (error : matrix) (display : bool) :
  method self ∉ available_methods →
  (∃ e, compute_anomalies self error display = Raise e)
  ∧ (∀ h : handler model,
       calls h (compute_anomalies self error display) = [])
  ∧ (∀ conv ids error' error_norm,
       preamble self error = OK (conv, ids, error', error_norm) →
       compute_anomalies self error display
       = Raise (ValueError
           ("Unknown anomaly method: " +:+ method self
            +:+ ". Available methods are ['threshold_norm', 'threshold', 'peaks', 'votes', 'gaussian']")))
  ∧ (∀ e, preamble self error = Err e →
          compute_anomalies self error display = Raise e).
Proof.
  intros Hm.
  assert (∃ e, compute_anomalies self error display = Raise e) as [e He].
  { destruct (preamble self error) as [[[[conv ids] e'] en]|e] eqn:Hp.
    - eexists. by eapply compute_anomalies_unknown.
    - eexists. by eapply compute_anomalies_preamble_Err. }
  split; [by exists e|]. split; [intros h; by rewrite He|].
  split.
  - intros conv ids e' en Hp.
    by rewrite (compute_anomalies_unknown _ _ _ _ _ _ _ Hm Hp).
  - intros e0 Hp. by apply compute_anomalies_preamble_Err.
Qed.

Lemma unknown_method_raises_witness :
  ("foo" ∉ available_methods)
  ∧ compute_anomalies (example_params "foo") example_error false
    = Raise (ValueError "Unknown anomaly method: foo. Available methods are ['threshold_norm', 'threshold', 'peaks', 'votes', 'gaussian']").
Proof.
  assert ("foo" ∉ available_methods) as Hm.
  { unfold available_methods. rewrite !not_elem_of_cons.
    repeat split; try discriminate. apply not_elem_of_nil. }
  split; [exact Hm|].
  refine (proj1 (proj2 (proj2
    (unknown_method_raises (example_params "foo") example_error false Hm)))
    [1 # 2; 1 # 2] [0%nat] example_error
    (Matrix 1 [[0 # 200001]; [200000 # 200001]]) _).
  vm_compute. reflexivity.
Defined.

(** C8 as stated fails: on a matrix without rows the normalization
    before the dispatch raises first, and the error is numpy's. *)
Lemma unknown_method_empty_matrix :
  ("foo" ∉ available_methods)
  ∧ compute_anomalies (example_params "foo") (Matrix 1 []) false
    = Raise (ValueError "zero-size array to reduction operation maximum which has no identity")
  ∧ compute_anomalies (example_params "foo") (Matrix 1 []) false
    ≠ Raise (ValueError (unknown_method_message "foo")).
Proof.
  split.
  { unfold available_methods. rewrite !not_elem_of_cons.
    repeat split; try discriminate. apply not_elem_of_nil. }
  split; [reflexivity|]. vm_compute. discriminate.
Qed.

(** C10.  Whatever is passed as [peaks_width], the constructed object
    has [peak_width = 10] and is the object constructed with any other
    value; with the [peaks] method, [compute_anomalies] passes
    [peak_width = 10] to [ano.anomaly_dates_peaks]. *)
Theorem init_ignores_peaks_width {model W W' : Type} (method_ : string)
    (smooth_factor_ : Z) (threshold_ : Q) (n_anomalies_ : Z)
    (v : W) (v' : W') (ignore_ : list string) :
  peak_width (init (model := model) method_ smooth_factor_ threshold_
                n_anomalies_ v ignore_) = 10%Z
  ∧ init (model := model) method_ smooth_factor_ threshold_ n_anomalies_ v
         ignore_
    = init method_ smooth_factor_ threshold_ n_anomalies_ v' ignore_
  ∧ ∀ lbls error display conv ids error' error_norm,
      preamble (set_labels (init (model := model) "peaks" smooth_factor_
                              threshold_ n_anomalies_ v ignore_) lbls) error
      = OK (conv, ids, error', error_norm) →
      compute_anomalies
        (set_labels (init (model := model) "peaks" smooth_factor_ threshold_
                       n_anomalies_ v ignore_) lbls) error display
      = Call (Anomaly_dates_peaks error_norm n_anomalies_ conv 10) Ret.
Proof.
  split; [reflexivity|]. split; [reflexivity|].
  intros lbls error display conv ids error' error_norm Hp.
  exact (compute_anomalies_peaks
           (set_labels (init "peaks" smooth_factor_ threshold_ n_anomalies_
                          v ignore_) lbls)
           error display conv ids error' error_norm eq_refl Hp).
Qed.

Lemma init_ignores_peaks_width_witness :
  ∃ error_norm,
    compute_anomalies
      (set_labels (init (model := option bool) "peaks" 1 (1 # 4) 40
                     "wide" []) ["a"]) example_error false
    = Call (Anomaly_dates_peaks error_norm 40 [1 # 2; 1 # 2] 10) Ret.
Proof.
  eexists.
  refine (proj2 (proj2
    (init_ignores_peaks_width (model := option bool) "peaks" 1 (1 # 4) 40
       "wide" 0%Z [])) ["a"] example_error false _ [0%nat] example_error _ _).
  vm_compute. reflexivity.
Defined.

End PolicyFacts.

(** ** More on the evaluator *)

Module EvaluatorLaws.
Import Evaluator EvaluatorFacts.

Lemma first_hit_true pred targ i :
  first_hit pred targ i = true
  ↔ ∃ a, a ∈ pred ∧ first_match a targ 0 = Some i.
Proof.
  unfold first_hit. rewrite existsb_exists. split.
  - intros (a & Ha & Hm). exists a. rewrite list_elem_of_In.
    split; [done|]. by apply bool_decide_eq_true in Hm.
  - intros (a & Ha & Hm). exists a. rewrite <- list_elem_of_In.
    split; [done|]. by apply bool_decide_eq_true.
Qed.

(** The found flags, for every input. *)
Lemma scan_first_hits pred targ :
  (scan targ pred).1 = first_hit pred targ <$> seq 0 (length targ).
Proof.
  unfold scan.
  pose proof (scan_invariant targ pred (replicate (length targ) false) []
                (length_replicate _ _)) as (H1 & H2 & _).
  simpl in H1, H2. set (st := fold_left _ _ _) in *.
  apply list_eq. intros i. rewrite list_lookup_fmap.
  destruct (decide (i < length targ)) as [Hi|Hi].
  - rewrite lookup_seq_lt by done. simpl.
    destruct (st.1 !! i) as [b|] eqn:Hb.
    2:{ apply lookup_ge_None in Hb. lia. }
    f_equal. destruct b.
    + apply H2 in Hb as [Hb|Hb].
      * apply lookup_replicate in Hb as [? _]. done.
      * symmetry. by apply first_hit_true.
    + destruct (first_hit pred targ i) eqn:Hh; [|done].
      apply first_hit_true in Hh.
      assert (st.1 !! i = Some true) as Ht; [|congruence].
      apply H2. by right.
  - rewrite lookup_seq_ge by lia. simpl. apply lookup_ge_None. lia.
Qed.

Lemma results_exact pred targ :
  get_anomaly_results pred targ
  = (count (first_hit pred targ) (seq 0 (length targ)),
     (Z.of_nat (length targ)
      - count (first_hit pred targ) (seq 0 (length targ)))%Z,
     count (unmatched targ) pred).
Proof.
  pose proof (scan_first_hits pred targ) as Hf.
  destruct (get_anomaly_results_fn_fp pred targ) as (tp & Hr).
  rewrite Hr. unfold get_anomaly_results in Hr.
  destruct (scan targ pred) as [found fps]. simpl in Hf. subst found.
  injection Hr as Htp _ _. rewrite <- Htp.
  rewrite py_sum_ones, filter_true_map. reflexivity.
Qed.

Lemma count_le_length {A} (f : A → bool) (l : list A) :
  (0 ≤ count f l ≤ Z.of_nat (length l))%Z.
Proof.
  unfold count. pose proof (length_filter (λ x, f x = true) l). lia.
Qed.

Lemma count_cons {A} (f : A → bool) (x : A) (l : list A) :
  count f (x :: l) = ((if f x then 1 else 0) + count f l)%Z.
Proof.
  unfold count. rewrite filter_cons.
  destruct (decide (f x = true)) as [Hx|Hx].
  - rewrite Hx. simpl. lia.
  - destruct (f x); [done|]. lia.
Qed.

Lemma count_mono {A} (f g : A → bool) (l : list A) :
  (∀ x, x ∈ l → f x = true → g x = true) → (count f l ≤ count g l)%Z.
Proof.
  induction l as [|x l IH]; intros H; [done|].
  rewrite !count_cons.
  assert (count f l ≤ count g l)%Z
    by (apply IH; intros y Hy; apply H; by right).
  destruct (f x) eqn:Hfx; [rewrite (H x) by (done || by left); lia|].
  destruct (g x); lia.
Qed.

Lemma count_pos {A} (f : A → bool) (x : A) (l : list A) :
  x ∈ l → f x = true → (1 ≤ count f l)%Z.
Proof.
  induction l as [|y l IH]; intros Hx Hf; [by apply elem_of_nil in Hx|].
  rewrite count_cons. pose proof (count_le_length f l).
  apply elem_of_cons in Hx as [<-|Hx]; [rewrite Hf; lia|].
  specialize (IH Hx Hf). destruct (f y); lia.
Qed.

(** A first match is a match. *)
Lemma first_hit_hit pred targ i :
  first_hit pred targ i = true →
  ∃ iv, targ !! i = Some iv ∧ hit pred iv = true.
Proof.
  intros H. apply first_hit_true in H as (a & Ha & Hm).
  apply first_match_Some in Hm as (_ & iv & Hiv & Hc).
  rewrite Nat.sub_0_r in Hiv. exists iv. split; [done|].
  apply hit_true. by exists a.
Qed.

Lemma count_seq_lookup {A} (f : nat → bool) (g : A → bool) (l : list A) :
  (∀ i, f i = true → ∃ x, l !! i = Some x ∧ g x = true) →
  (count f (seq 0 (length l)) ≤ count g l)%Z.
Proof.
  revert f. induction l as [|x l IH]; intros f H; [done|].
  cbn [length seq]. rewrite !count_cons.
  assert (count f (seq 1 (length l)) ≤ count g l)%Z as Hrest.
  { rewrite <- fmap_S_seq. unfold count at 1.
    replace (length (filter (λ i, f i = true) (S <$> seq 0 (length l))))
      with (length (filter (λ i, f (S i) = true) (seq 0 (length l)))).
    - apply (IH (λ i, f (S i))). intros i Hi. by apply (H (S i)).
    - generalize (seq 0 (length l)). intros s.
      induction s as [|j s IHs]; [done|].
      rewrite fmap_cons, !filter_cons.
      destruct (decide (f (S j) = true)); simpl; by rewrite IHs. }
  destruct (f 0) eqn:Hf0; [|destruct (g x); lia].
  destruct (H 0 Hf0) as (y & [= <-] & ->). lia.
Qed.

(** X1.  For every input, [tp] is the number of positions whose
    interval is the first one containing some predicted index, [fn] is
    the rest of the intervals and [fp] is the number of predicted
    indices (repetitions counted) that no interval contains; [tp] never
    exceeds the number of intervals that contain a predicted index. *)
Theorem get_anomaly_results_first_hits (pred : list Z)
    (targ : list interval) :
  get_anomaly_results pred targ
  = (count (first_hit pred targ) (seq 0 (length targ)),
     (Z.of_nat (length targ)
      - count (first_hit pred targ) (seq 0 (length targ)))%Z,
     count (unmatched targ) pred)
  ∧ (count (first_hit pred targ) (seq 0 (length targ))
     ≤ count (hit pred) targ)%Z.
Proof.
  split; [apply results_exact|].
  apply count_seq_lookup. intros i Hi. by apply first_hit_hit.
Qed.

Lemma count_true_insert (l : list bool) (i : nat) :
  length (filter (λ b : bool, b = true) (<[i:=true]> l))
  ≤ S (length (filter (λ b : bool, b = true) l)).
Proof.
  revert i. induction l as [|b l IH]; intros i;
    [destruct i; simpl; lia|].
  destruct i as [|i]; simpl.
  - rewrite !filter_cons.
    destruct (decide (b = true)); simpl; lia.
  - rewrite !filter_cons. specialize (IH i).
    destruct (decide (b = true)); simpl; lia.
Qed.

(** Each predicted index sets at most one flag or adds one false
    positive. *)
Lemma scan_budget targ pred found fps :
  let st := fold_left (scan_step targ) pred (found, fps) in
  length (filter (λ b : bool, b = true) st.1) + length st.2
  ≤ length (filter (λ b : bool, b = true) found) + length fps + length pred.
Proof.
  revert found fps. induction pred as [|a pred IH]; intros found fps.
  - simpl. lia.
  - cbn [fold_left].
    assert (scan_step targ (found, fps) a
            = match first_match a targ 0 with
              | Some i => (<[i:=true]> found, fps)
              | None => (found, fps ++ [a])
              end) as -> by reflexivity.
    destruct (first_match a targ 0) as [k|].
    + specialize (IH (<[k:=true]> found) fps). simpl in IH |- *.
      pose proof (count_true_insert found k). lia.
    + specialize (IH found (fps ++ [a])). simpl in IH |- *.
      rewrite length_app in IH. simpl in IH. lia.
Qed.

Lemma filter_replicate_false n :
  filter (λ b : bool, b = true) (replicate n false) = [].
Proof. induction n as [|n IH]; [done|]. simpl. by rewrite filter_cons. Qed.

(** X2.  For every input the three counts are within bounds:
    [tp + fn] is the number of intervals, none of the counts is
    negative, and [tp + fp] does not exceed the number of predicted
    indices. *)
Theorem get_anomaly_results_bounds (pred : list Z) (targ : list interval) :
  ∃ tp fn fp,
    get_anomaly_results pred targ = (tp, fn, fp)
    ∧ (tp + fn = Z.of_nat (length targ))%Z
    ∧ (0 ≤ tp)%Z ∧ (0 ≤ fn)%Z ∧ (0 ≤ fp)%Z
    ∧ (tp + fp ≤ Z.of_nat (length pred))%Z.
Proof.
  pose proof (scan_budget targ pred (replicate (length targ) false) [])
    as Hb.
  pose proof (scan_first_hits pred targ) as Hf.
  unfold get_anomaly_results, scan in *.
  destruct (fold_left _ _ _) as [found fps]. simpl in Hb, Hf.
  rewrite filter_replicate_false in Hb. simpl in Hb.
  eexists _, _, _. split; [reflexivity|].
  rewrite py_sum_ones.
  assert (length (filter (λ b : bool, b = true) found) ≤ length targ).
  { etrans; [apply length_filter|]. rewrite Hf.
    by rewrite length_fmap, length_seq. }
  lia.
Qed.

(** X3.  The result does not depend on the order of the predicted
    indices. *)
Theorem get_anomaly_results_permutation (pred pred' : list Z)
    (targ : list interval) :
  pred ≡ₚ pred' →
  get_anomaly_results pred targ = get_anomaly_results pred' targ.
Proof.
  intros Hp. rewrite !results_exact.
  assert (count (first_hit pred targ) (seq 0 (length targ))
          = count (first_hit pred' targ) (seq 0 (length targ))) as ->.
  { apply count_ext_in. intros i _.
    destruct (first_hit pred targ i) eqn:H1.
    - symmetry. apply first_hit_true. apply first_hit_true in H1.
      destruct H1 as (a & Ha & Hm). exists a. by rewrite <- Hp.
    - destruct (first_hit pred' targ i) eqn:H2; [|done].
      apply first_hit_true in H2 as (a & Ha & Hm).
      assert (first_hit pred targ i = true) as H; [|congruence].
      apply first_hit_true. exists a. by rewrite Hp. }
  unfold count. by rewrite Hp.
Qed.

Lemma get_anomaly_results_permutation_witness :
  get_anomaly_results [70; 12; 55]%Z [(10, 20); (50, 60)]%Z
  = get_anomaly_results [12; 55; 70]%Z [(10, 20); (50, 60)]%Z.
Proof.
  apply get_anomaly_results_permutation.
  etrans; [apply perm_swap|]. apply perm_skip, perm_swap.
Defined.

Lemma unit_ratio (a b : Z) :
  (0 ≤ a ≤ b)%Z → (0 < b)%Z →
  (0 <= inject_Z a / inject_Z b)%Q ∧ (inject_Z a / inject_Z b <= 1)%Q.
Proof.
  intros [Ha Hab] Hb.
  assert (0 < inject_Z b)%Q as Hb'
    by (change 0%Q with (inject_Z 0); by rewrite <- Zlt_Qlt).
  split.
  - apply Qle_shift_div_l; [done|]. rewrite Qmult_0_l.
    change 0%Q with (inject_Z 0). by rewrite <- Zle_Qle.
  - apply Qle_shift_div_r; [done|]. rewrite Qmult_1_l.
    by rewrite <- Zle_Qle.
Qed.

Lemma count_none {A} (f : A → bool) (l : list A) :
  (∀ x, f x = false) → count f l = 0%Z.
Proof.
  intros H. induction l as [|x l IH]; [done|].
  rewrite count_cons, H, IH. done.
Qed.

(** With a predicted index there is a true or a false positive. *)
Lemma results_nonempty a pred targ :
  (1 ≤ count (first_hit (a :: pred) targ) (seq 0 (length targ))
       + count (unmatched targ) (a :: pred))%Z.
Proof.
  pose proof (count_le_length (first_hit (a :: pred) targ)
                (seq 0 (length targ))).
  pose proof (count_le_length (unmatched targ) (a :: pred)).
  destruct (first_match a targ 0) as [i|] eqn:Hm.
  - assert (1 ≤ count (first_hit (a :: pred) targ)
                      (seq 0 (length targ)))%Z; [|lia].
    apply (count_pos _ i).
    + apply elem_of_seq. apply first_match_lt in Hm. lia.
    + apply first_hit_true. exists a. split; [by left | done].
  - assert (1 ≤ count (unmatched targ) (a :: pred))%Z; [|lia].
    apply (count_pos _ a); [by left|]. by apply first_match_None in Hm.
Qed.

(** X4.  [get_anomaly_score] returns a pair exactly when there is at
    least one predicted index and at least one interval, and then both
    ratios lie between 0 and 1; in every other case it raises
    [ZeroDivisionError]. *)
Theorem get_anomaly_score_defined (pred : list Z) (targ : list interval) :
  match get_anomaly_score pred targ with
  | OK (recall, ratio) =>
      pred ≠ [] ∧ targ ≠ []
      ∧ (0 <= recall)%Q ∧ (recall <= 1)%Q
      ∧ (0 <= ratio)%Q ∧ (ratio <= 1)%Q
  | Err e =>
      e = ZeroDivisionError "division by zero" ∧ (pred = [] ∨ targ = [])
  end.
Proof.
  unfold get_anomaly_score. rewrite results_exact.
  pose proof (count_le_length (first_hit pred targ) (seq 0 (length targ)))
    as HT.
  pose proof (count_le_length (unmatched targ) pred) as HF.
  rewrite length_seq in HT.
  set (T := count (first_hit pred targ) (seq 0 (length targ))) in *.
  set (F := count (unmatched targ) pred) in *.
  replace (T + (Z.of_nat (length targ) - T))%Z
    with (Z.of_nat (length targ)) by lia.
  unfold py_truediv.
  destruct (Z.eqb_spec (Z.of_nat (length targ)) 0) as [Hn|Hn]; simpl.
  { split; [done|]. right. destruct targ; [done | simpl in Hn; lia]. }
  destruct (Z.eqb_spec (T + F) 0) as [Hz|Hz]; simpl.
  { split; [done|]. left. destruct pred as [|a pred]; [done|].
    pose proof (results_nonempty a pred targ). subst T F. lia. }
  destruct (unit_ratio T (Z.of_nat (length targ))) as [H1 H2]; [lia..|].
  destruct (unit_ratio T (T + F)) as [H3 H4]; [lia..|].
  split.
  { intros ->. subst T F. rewrite count_none in Hz by done.
    simpl in Hz. done. }
  split; [intros ->; done|]. done.
Qed.

Lemma contains_shift s iv a :
  contains (shift_interval s iv) (a + s) = contains iv a.
Proof.
  assert (∀ x y, (x + s <=? y + s)%Z = (x <=? y)%Z) as H.
  { intros x y.
    destruct (Z.leb_spec x y), (Z.leb_spec (x + s) (y + s)); done || lia. }
  unfold contains, shift_interval. simpl. by rewrite !H.
Qed.

Lemma first_match_shift s a targ k :
  first_match (a + s) (shift_interval s <$> targ) k = first_match a targ k.
Proof.
  revert k. induction targ as [|iv rest IH]; intros k; [done|].
  rewrite fmap_cons. simpl. rewrite contains_shift.
  destruct (contains iv a); [done | apply IH].
Qed.

Lemma scan_shift s targ pred found fps :
  fold_left (scan_step (shift_interval s <$> targ))
            ((λ a, a + s)%Z <$> pred) (found, (λ a, a + s)%Z <$> fps)
  = ((fold_left (scan_step targ) pred (found, fps)).1,
     (λ a, a + s)%Z <$> (fold_left (scan_step targ) pred (found, fps)).2).
Proof.
  revert found fps. induction pred as [|a pred IH]; intros found fps;
    [done|].
  rewrite fmap_cons. cbn [fold_left].
  assert (∀ T st x, scan_step T st x
                    = match first_match x T 0 with
                      | Some i => (<[i:=true]> st.1, st.2)
                      | None => (st.1, st.2 ++ [x])
                      end) as Hs by reflexivity.
  rewrite !Hs. cbn [fst snd]. rewrite first_match_shift.
  destruct (first_match a targ 0) as [k|].
  - apply IH.
  - rewrite <- (IH found (fps ++ [a])). by rewrite fmap_app.
Qed.

(** X5.  Moving every predicted index and every interval by the same
    number of time steps (the shift of a model) leaves the result
    unchanged. *)
Theorem get_anomaly_results_shift (s : Z) (pred : list Z)
    (targ : list interval) :
  get_anomaly_results ((λ a, a + s)%Z <$> pred) (shift_interval s <$> targ)
  = get_anomaly_results pred targ.
Proof.
  unfold get_anomaly_results, scan. rewrite !length_fmap.
  pose proof (scan_shift s targ pred (replicate (length targ) false) [])
    as H.
  simpl in H. rewrite H.
  destruct (fold_left (scan_step targ) pred _) as [found fps]. simpl.
  by rewrite length_fmap.
Qed.

(** X6.  Further predicted indices never lower [tp] nor [fp] and never
    raise [fn]; [fp] grows by the number of those that no interval
    contains. *)
Theorem get_anomaly_results_more_predictions (pred more : list Z)
    (targ : list interval) :
  ∃ tp fn fp tp' fn' fp',
    get_anomaly_results pred targ = (tp, fn, fp)
    ∧ get_anomaly_results (pred ++ more) targ = (tp', fn', fp')
    ∧ (tp ≤ tp')%Z ∧ (fn' ≤ fn)%Z
    ∧ fp' = (fp + count (unmatched targ) more)%Z.
Proof.
  rewrite !results_exact. eexists _, _, _, _, _, _.
  split; [reflexivity|]. split; [reflexivity|].
  assert (count (first_hit pred targ) (seq 0 (length targ))
          ≤ count (first_hit (pred ++ more) targ) (seq 0 (length targ)))%Z.
  { apply count_mono. intros i _ Hi. apply first_hit_true.
    apply first_hit_true in Hi as (a & Ha & Hm). exists a.
    split; [|done]. apply elem_of_app. by left. }
  split; [done|]. split; [lia|]. apply count_app.
Qed.

End EvaluatorLaws.

(** ** Label lookup, column selection and the smoothing kernel *)

Module SelectionFacts.

Lemma get_col_from_spec (k : nat) (header : list string) (l : string) :
  match get_col_from k header l with
  | OK i =>
      k ≤ i ∧ header !! (i - k) = Some l
      ∧ ∀ j, j < i - k → header !! j ≠ Some l
  | Err e => e = IndexError "not found" ∧ l ∉ header
  end.
Proof.
  revert k. induction header as [|hl rest IH]; intros k; simpl.
  - split; [done | apply not_elem_of_nil].
  - destruct (String.eqb_spec hl l) as [->|Hne].
    + split; [lia|]. rewrite Nat.sub_diag. split; [done|]. intros j Hj. lia.
    + specialize (IH (S k)).
      destruct (get_col_from (S k) rest l) as [i|e].
      * destruct IH as (Hle & Hi & Hfirst). split; [lia|].
        replace (i - k) with (S (i - S k)) by lia. split; [done|].
        intros [|j] Hj; simpl; [congruence|]. apply Hfirst. lia.
      * destruct IH as [-> Hnot]. split; [done|].
        apply not_elem_of_cons. split; [congruence | done].
Qed.

(** X7.  [get_col] returns the position of the first entry of the header
    equal to the label, and raises [IndexError] exactly when the header
    does not hold the label. *)
Theorem get_col_first (header : list string) (l : string) :
  match get_col header l with
  | OK i => header !! i = Some l ∧ ∀ j, j < i → header !! j ≠ Some l
  | Err e => e = IndexError "not found" ∧ l ∉ header
  end.
Proof.
  unfold get_col. pose proof (get_col_from_spec 0 header l) as H.
  destruct (get_col_from 0 header l) as [i|e]; [|done].
  rewrite Nat.sub_0_r in H. destruct H as (_ & H1 & H2). done.
Qed.

Lemma col_ids_loop_spec (labels_ ignore_ lbls : list string) :
  (∀ lbl, lbl ∈ lbls → lbl ∈ labels_) →
  ∃ ids, col_ids_loop labels_ ignore_ lbls = OK ids
    ∧ Forall2 (first_position labels_)
              (filter (λ lbl, lbl ∉ ignore_) lbls) ids.
Proof.
  induction lbls as [|lbl rest IH]; intros Hin.
  - exists []. split; [done | constructor].
  - destruct IH as (ids & Hids & Hall).
    { intros x Hx. apply Hin. by right. }
    simpl. rewrite filter_cons. case_bool_decide as Hig.
    + rewrite decide_False by tauto. by exists ids.
    + rewrite decide_True by done.
      pose proof (get_col_from_spec 0 labels_ lbl) as Hc.
      unfold get_col. destruct (get_col_from 0 labels_ lbl) as [i|e].
      * rewrite Nat.sub_0_r in Hc. destruct Hc as (_ & H1 & H2).
        simpl. rewrite Hids. simpl. exists (i :: ids).
        split; [done|]. by constructor.
      * destruct Hc as [_ Hnot]. exfalso. apply Hnot, Hin. by left.
Qed.

(** X8.  The label lookup of [fit] and [compute_anomalies] cannot fail:
    [col_ids] always returns, with one position for each label that is
    not ignored, in the order of the labels, each the position of the
    first occurrence of its label (so within the label list). *)
Theorem col_ids_never_fails {model : Type} (self : AnomalyParameters model) :
  ∃ ids, col_ids self = OK ids
    ∧ Forall2 (first_position (labels self))
              (filter (λ lbl, lbl ∉ ignore self) (labels self)) ids
    ∧ Forall (λ i, i < length (labels self)) ids.
Proof.
  destruct (col_ids_loop_spec (labels self) (ignore self) (labels self))
    as (ids & Hids & Hall); [done|].
  exists ids. split; [done|]. split; [done|].
  clear Hids. induction Hall as [|lbl i lbls ids [Hi _] _ IH];
    constructor; [|done].
  by apply lookup_lt_Some in Hi.
Qed.

Lemma filter_not_in_nil (l : list string) :
  filter (λ lbl, lbl ∉ ([] : list string)) l = l.
Proof.
  induction l as [|x l IH]; [done|].
  rewrite filter_cons, decide_True by apply not_elem_of_nil.
  by rewrite IH.
Qed.

Lemma map_lookup_seq (r : list Q) :
  map (λ i, default 0%Q (r !! i)) (seq 0 (length r)) = r.
Proof.
  apply list_eq. intros i.
  change (map ?f ?l) with (f <$> l). rewrite list_lookup_fmap.
  destruct (decide (i < length r)) as [Hi|Hi].
  - rewrite lookup_seq_lt by done. simpl.
    destruct (r !! i) eqn:Hr; [done|].
    apply lookup_ge_None in Hr. lia.
  - rewrite lookup_seq_ge by lia. simpl. symmetry.
    apply lookup_ge_None. lia.
Qed.

(** X9.  With distinct labels, none ignored, and a rectangular matrix
    with one column per label, the selection is the identity:
    [col_ids] is [0, 1, ..., n-1] and [error[:, col_ids]] is [error]. *)
Theorem col_ids_identity {model : Type} (self : AnomalyParameters model)
    (error : matrix) :
  NoDup (labels self) → ignore self = [] →
  rectangular error → ncols error = length (labels self) →
  col_ids self = OK (seq 0 (length (labels self)))
  ∧ take_cols error (seq 0 (length (labels self))) = OK error.
Proof.
  intros Hnd Hig Hrect Hw. split.
  - destruct (col_ids_loop_spec (labels self) (ignore self) (labels self))
      as (ids & Hids & Hall); [done|].
    unfold col_ids. rewrite Hids. f_equal.
    rewrite Hig, filter_not_in_nil in Hall.
    apply list_eq. intros k.
    destruct (labels self !! k) as [lbl|] eqn:Hk.
    + destruct (Forall2_lookup_l _ _ _ _ _ Hall Hk) as (i & Hi & Hpos & _).
      rewrite Hi. rewrite lookup_seq_lt by (by apply lookup_lt_Some in Hk).
      simpl. f_equal. by eapply NoDup_lookup.
    + apply lookup_ge_None in Hk. rewrite lookup_seq_ge by lia.
      apply lookup_ge_None. by rewrite <- (Forall2_length _ _ _ Hall).
  - unfold take_cols. rewrite <- Hw.
    assert (forallb (λ i, i <? ncols error) (seq 0 (ncols error)) = true)
      as ->.
    { apply forallb_forall. intros i Hi. apply in_seq in Hi.
      apply Nat.ltb_lt. lia. }
    destruct error as [c rs]. unfold rectangular in Hrect. simpl in *.
    rewrite length_seq. do 2 f_equal.
    induction Hrect as [|r rs' Hr _ IH]; [done|].
    simpl. f_equal; [|exact IH]. rewrite <- Hr. apply map_lookup_seq.
Qed.

Lemma col_ids_identity_witness :
  col_ids (set_labels (init (model := option bool) "peaks" 1 3 40 10%Z [])
             ["a"; "b"]) = OK [0; 1]
  ∧ take_cols (Matrix 2 [[1; 2]; [3; 4]]%Q) [0; 1]
    = OK (Matrix 2 [[1; 2]; [3; 4]]%Q).
Proof.
  apply (col_ids_identity
           (set_labels (init (model := option bool) "peaks" 1 3 40 10%Z [])
              ["a"; "b"])
           (Matrix 2 [[1; 2]; [3; 4]]%Q)).
  - simpl. apply NoDup_cons. split; [|apply NoDup_singleton].
    rewrite list_elem_of_singleton. discriminate.
  - reflexivity.
  - unfold rectangular. simpl. repeat constructor.
  - reflexivity.
Defined.

End SelectionFacts.

(** ** More on the normalizers *)

Module NormalizerLaws.
Import NormalizerFacts.

Local Open Scope Q_scope.

(** X11.  On a rectangular matrix, [normalize_error] returns exactly
    when the matrix has at least one row, and then a rectangular matrix
    of the same shape; on a matrix without rows it raises the
    [ValueError] of [np.amax]. *)
Theorem normalize_error_defined (data : matrix) :
  rectangular data →
  match normalize_error data with
  | OK out =>
      rows data ≠ [] ∧ ncols out = ncols data ∧ nrows out = nrows data
      ∧ rectangular out
  | Err e =>
      rows data = []
      ∧ e = ValueError "zero-size array to reduction operation maximum which has no identity"
  end.
Proof.
  intros Hrect. destruct (rows data) as [|r rest] eqn:Hrows.
  - unfold normalize_error, np_amax, reduce_axis0. rewrite Hrows. done.
  - assert (rows data ≠ []) as Hne by (rewrite Hrows; done).
    destruct (np_amax_spec data Hrect Hne) as (vmax & Hvmax & Lmax & _).
    destruct (np_min_spec data Hrect Hne) as (vmin & Hvmin & Lmin & _).
    unfold normalize_error. rewrite Hvmax, Hvmin. simpl.
    rewrite broadcast_same by congruence. simpl.
    rewrite broadcast_same
      by (unfold divisor; simpl; rewrite length_zip_with_l_eq; congruence).
    simpl. split; [done|]. split; [done|].
    split; [unfold nrows; simpl; by rewrite !length_map, Hrows|].
    unfold rectangular in *. simpl. rewrite Hrows.
    rewrite !Forall_fmap. rewrite Hrows in Hrect.
    eapply Forall_impl; [exact Hrect|]. intros row Hrow. simpl.
    unfold divisor. simpl in Hrow.
    assert (length (zip_with (λ mx mn : Q, mx - mn + eps) vmax vmin)
            = ncols data) as Hd
      by (rewrite length_zip_with_l_eq; congruence).
    assert (length (zip_with Qminus row vmin) = ncols data) as Hc
      by (rewrite length_zip_with_l_eq; congruence).
    rewrite length_zip_with_l_eq; congruence.
Qed.

Lemma normalize_error_defined_witness :
  ∃ out, normalize_error (Matrix 2 [[1; 5]; [3; 5]]) = OK out
    ∧ ncols out = 2%nat ∧ nrows out = 2%nat ∧ rectangular out.
Proof.
  pose proof (normalize_error_defined (Matrix 2 [[1; 5]; [3; 5]])) as H.
  destruct (normalize_error (Matrix 2 [[1; 5]; [3; 5]])) as [out|e] eqn:E.
  - exists out. split; [done|].
    apply H. unfold rectangular. simpl. repeat constructor.
  - vm_compute in E. discriminate E.
Defined.

(** The entries of the output, by the column extremes. *)
Lemma normalize_error_entries (data out : matrix) :
  rectangular data → normalize_error data = OK out →
  ∃ vmax vmin,
    np_amax data = OK vmax ∧ np_min data = OK vmin
    ∧ ∀ j, (j < ncols data)%nat →
        ∃ mx mn, vmax !! j = Some mx ∧ vmin !! j = Some mn
          ∧ 0 < mx - mn + eps
          ∧ (∃ i, entry data i j = Some mn)
          ∧ (∀ i x, entry data i j = Some x → mn <= x)
          ∧ ∀ i x, entry data i j = Some x →
              entry out i j = Some ((x - mn) / (mx - mn + eps)).
Proof.
  intros Hrect Hout.
  assert (rows data ≠ []) as Hne.
  { intros Hr. unfold normalize_error, np_amax, reduce_axis0 in Hout.
    rewrite Hr in Hout. discriminate Hout. }
  destruct (np_amax_spec data Hrect Hne) as (vmax & Hvmax & Lmax & Smax).
  destruct (np_min_spec data Hrect Hne) as (vmin & Hvmin & Lmin & Smin).
  destruct (scale_entries data vmax vmin) as (out' & Hout' & _ & _ & He);
    [congruence | congruence |].
  unfold normalize_error in Hout. rewrite Hvmax, Hvmin in Hout.
  simpl in Hout. rewrite Hout' in Hout. injection Hout as <-.
  exists vmax, vmin. do 2 (split; [done|]). intros j Hj.
  destruct (vmax !! j) as [mx|] eqn:Hmx.
  2:{ apply lookup_ge_None in Hmx. lia. }
  destruct (vmin !! j) as [mn|] eqn:Hmn.
  2:{ apply lookup_ge_None in Hmn. lia. }
  destruct (Smax j mx Hmx) as [Ub [imax Amax]].
  destruct (Smin j mn Hmn) as [Lb Amin].
  destruct (scaled_bounds mx mn mx (Lb _ _ Amax) (Ub _ _ Amax))
    as (Hd & _ & _).
  exists mx, mn. do 5 (split; [done|]).
  intros i x Hx. by apply He.
Qed.

(** X12.  Within a column, [normalize_error] keeps the order of the
    entries (an entry that is not larger is not sent to a larger
    value), and sends the least entry of the column to 0. *)
Theorem normalize_error_monotone (data out : matrix) (i i' j : nat)
    (x x' y y' : Q) :
  rectangular data → normalize_error data = OK out →
  entry data i j = Some x → entry data i' j = Some x' →
  entry out i j = Some y → entry out i' j = Some y' →
  (x <= x' → y <= y')
  ∧ ((∀ i0 x0, entry data i0 j = Some x0 → x <= x0) → y == 0).
Proof.
  intros Hrect Hout Hx Hx' Hy Hy'.
  destruct (normalize_error_entries data out Hrect Hout)
    as (vmax & vmin & _ & _ & Hcols).
  destruct (Hcols j (entry_col_lt _ _ _ _ Hrect Hx))
    as (mx & mn & _ & _ & Hd & [imin Amin] & Lb & He).
  rewrite (He _ _ Hx) in Hy. rewrite (He _ _ Hx') in Hy'.
  injection Hy as <-. injection Hy' as <-.
  assert (0 < / (mx - mn + eps)) as Hinv by (by apply Qinv_lt_0_compat).
  unfold Qdiv. split.
  - intros Hle. apply Qmult_le_compat_r; [lra | by apply Qlt_le_weak].
  - intros Hleast.
    assert (x - mn == 0) as ->; [|ring].
    pose proof (Hleast _ _ Amin). pose proof (Lb _ _ Hx). lra.
Qed.

Lemma normalize_error_monotone_witness :
  ∃ out y y',
    normalize_error (Matrix 2 [[1; 5]; [3; 5]]) = OK out
    ∧ entry out 0 0 = Some y ∧ entry out 1 0 = Some y'
    ∧ y <= y' ∧ y == 0.
Proof.
  destruct (normalize_error (Matrix 2 [[1; 5]; [3; 5]])) as [out|e] eqn:E;
    [|vm_compute in E; discriminate E].
  destruct (entry out 0 0) as [y|] eqn:Ey.
  2:{ vm_compute in E. injection E as <-. vm_compute in Ey.
      discriminate Ey. }
  destruct (entry out 1 0) as [y'|] eqn:Ey'.
  2:{ vm_compute in E. injection E as <-. vm_compute in Ey'.
      discriminate Ey'. }
  assert (rectangular (Matrix 2 [[1; 5]; [3; 5]])) as Hrect
    by (unfold rectangular; simpl; repeat constructor).
  destruct (normalize_error_monotone (Matrix 2 [[1; 5]; [3; 5]]) out
              0 1 0 1 3 y y' Hrect E eq_refl eq_refl Ey Ey')
    as (H2 & H3).
  exists out, y, y'. do 3 (split; [done|]). split.
  - apply H2. unfold Qle. simpl. lia.
  - apply H3. intros [|[|i0]] x0 Hx0; vm_compute in Hx0;
      try discriminate Hx0; injection Hx0 as <-; unfold Qle; simpl; lia.
Defined.

(** X13.  [normalize_data] raises a [ValueError], the one of
    broadcasting, when the two matrices differ in width and neither has
    a single column. *)
Theorem normalize_data_width_mismatch (pred targ : matrix) :
  rectangular targ → rows targ ≠ [] →
  ncols pred ≠ ncols targ → ncols pred ≠ 1%nat → ncols targ ≠ 1%nat →
  ∃ msg, normalize_data pred targ = Err (ValueError msg).
Proof.
  intros Hrect Hne Hw Hp Ht.
  destruct (np_amax_spec targ Hrect Hne) as (vmax & Hvmax & Lmax & _).
  destruct (np_min_spec targ Hrect Hne) as (vmin & Hvmin & Lmin & _).
  unfold normalize_data. rewrite Hvmax, Hvmin. simpl.
  unfold broadcast at 1.
  rewrite decide_False by congruence.
  rewrite decide_False by congruence.
  rewrite decide_False by done. by eexists.
Qed.

Lemma normalize_data_width_mismatch_witness :
  normalize_data (Matrix 3 [[1; 2; 3]]) (Matrix 2 [[1; 2]; [3; 4]])
  = Err (ValueError
           "operands could not be broadcast together with shapes (1,3) (2,) ").
Proof.
  destruct (normalize_data_width_mismatch
              (Matrix 3 [[1; 2; 3]]) (Matrix 2 [[1; 2]; [3; 4]]))
    as [msg H].
  - unfold rectangular. simpl. repeat constructor.
  - discriminate.
  - simpl. lia.
  - simpl. lia.
  - simpl. lia.
  - rewrite H. vm_compute in H. by injection H as <-.
Defined.

End NormalizerLaws.

(** ** More on the aggregator *)

Module AggregatorLaws.
Import AggregatorFacts.

Lemma concat_loop_app (errors : gmap string (gmap string matrix))
    (l1 l2 : list string) (r0 : gmap string matrix) :
  concat_loop errors (l1 ++ l2) r0
  = rbind (concat_loop errors l1 r0) (concat_loop errors l2).
Proof.
  revert r0. induction l1 as [|f l1 IH]; intros r0; [done|].
  simpl. destruct (concat_datafile errors r0 f) as [r1|e]; simpl; [|done].
  apply IH.
Qed.

(** X14.  A listed file that [errors] does not hold raises [KeyError]
    with its name, once the files listed before it have been stacked;
    the files after it are not looked at. *)
Theorem concat_all_datafiles_unknown_file
    (errors : gmap string (gmap string matrix))
    (known : list string) (f : string) (rest : list string) :
  (∀ g, g ∈ known → is_Some (errors !! g)) →
  equal_width errors →
  errors !! f = None →
  concat_all_datafiles errors (known ++ f :: rest) = Err (KeyError f).
Proof.
  intros Hknown Hw Hf. unfold concat_all_datafiles.
  rewrite concat_loop_app.
  destruct (concat_loop_stack errors known ∅ Hknown Hw) as (r & Hr & _).
  { intros model r g e Hr. by rewrite lookup_empty in Hr. }
  rewrite Hr. simpl. unfold concat_datafile. rewrite Hf. done.
Qed.

Lemma concat_all_datafiles_unknown_file_witness :
  concat_all_datafiles example_errors ["a"; "c"; "b"] = Err (KeyError "c").
Proof.
  apply (concat_all_datafiles_unknown_file example_errors ["a"] "c" ["b"]).
  - intros g Hg. apply list_elem_of_singleton in Hg as ->.
    unfold example_errors. by rewrite lookup_insert_eq.
  - intros model f1 f2 e1 e2 H1 H2.
    apply example_errors_block in H1, H2. congruence.
  - vm_compute. reflexivity.
Defined.

(** One file, read backwards: a result means that the file is known
    and that its matrices have the widths of what was stacked. *)
Lemma concat_datafile_OK (errors : gmap string (gmap string matrix))
    (r0 : gmap string matrix) (f : string) (r1 : gmap string matrix) :
  concat_datafile errors r0 f = OK r1 →
  ∃ error, errors !! f = Some error
    ∧ (∀ model r e, r0 !! model = Some r → error !! model = Some e →
                    ncols r = ncols e)
    ∧ ∀ model, r1 !! model = stack (r0 !! model) (error !! model).
Proof.
  unfold concat_datafile. destruct (errors !! f) as [error|]; [|done].
  intros H. exists error. split; [done|]. revert r1 H.
  apply (map_fold_weak_ind (λ acc (m : gmap string matrix),
    ∀ r1, acc = OK r1 →
      (∀ model r e, r0 !! model = Some r → m !! model = Some e →
                    ncols r = ncols e)
      ∧ ∀ model, r1 !! model = stack (r0 !! model) (m !! model))).
  - intros r1 [= <-]. split.
    + intros model r e _ He. by rewrite lookup_empty in He.
    + intros model. rewrite lookup_empty. by destruct (r0 !! model).
  - intros i x m acc Hi IH r1 Hacc.
    destruct acc as [r|e]; simpl in Hacc; [|done].
    destruct (IH r eq_refl) as [Hcompat Hr].
    pose proof (Hr i) as Hri. rewrite Hi in Hri.
    unfold concat_model in Hacc.
    destruct (r0 !! i) as [a|] eqn:Hr0; simpl in Hri; rewrite Hri in Hacc.
    + unfold np_concatenate in Hacc.
      destruct (decide (ncols a = ncols x)) as [Hw|]; [|done].
      simpl in Hacc. injection Hacc as <-. split.
      * intros model r' e Hr' He.
        destruct (decide (i = model)) as [<-|Hne].
        -- rewrite lookup_insert_eq in He. congruence.
        -- rewrite lookup_insert_ne in He by done. by eapply Hcompat.
      * intros model. destruct (decide (i = model)) as [<-|Hne].
        -- rewrite !lookup_insert_eq, Hr0. done.
        -- rewrite !lookup_insert_ne by done. apply Hr.
    + injection Hacc as <-. split.
      * intros model r' e Hr' He.
        destruct (decide (i = model)) as [<-|Hne]; [congruence|].
        rewrite lookup_insert_ne in He by done. by eapply Hcompat.
      * intros model. destruct (decide (i = model)) as [<-|Hne].
        -- rewrite !lookup_insert_eq, Hr0. done.
        -- rewrite !lookup_insert_ne by done. apply Hr.
Qed.

(** The loop, read backwards. *)
Lemma concat_loop_OK (errors : gmap string (gmap string matrix))
    (datafiles : list string) (r0 r : gmap string matrix) :
  concat_loop errors datafiles r0 = OK r →
  (∀ f, f ∈ datafiles → is_Some (errors !! f))
  ∧ ∀ model,
      match r0 !! model with
      | Some a => ∀ b, b ∈ blocks errors model datafiles → ncols b = ncols a
      | None => ∀ b1 b2, b1 ∈ blocks errors model datafiles →
                         b2 ∈ blocks errors model datafiles →
                         ncols b1 = ncols b2
      end.
Proof.
  revert r0. induction datafiles as [|f rest IH]; intros r0 Hr.
  - split; [intros f Hf; by apply elem_of_nil in Hf|].
    intros model. destruct (r0 !! model); intros;
      exfalso; by eapply elem_of_nil.
  - simpl in Hr.
    destruct (concat_datafile errors r0 f) as [r1|e] eqn:Hf; [|done].
    simpl in Hr.
    destruct (concat_datafile_OK _ _ _ _ Hf) as (error & Herr & Hc & Hlk).
    destruct (IH r1 Hr) as [Hknown Hwid]. split.
    + intros g Hg. apply elem_of_cons in Hg as [->|Hg]; [|by apply Hknown].
      by rewrite Herr.
    + intros model. specialize (Hwid model). rewrite Hlk in Hwid.
      assert (blocks errors model (f :: rest)
              = match error !! model with
                | Some y => y :: blocks errors model rest
                | None => blocks errors model rest
                end) as ->.
      { unfold blocks. simpl. unfold block at 1. by rewrite Herr. }
      destruct (r0 !! model) as [a|] eqn:Ha,
               (error !! model) as [e|] eqn:He; simpl in Hwid |- *.
      * intros b Hb. apply elem_of_cons in Hb as [->|Hb];
          [symmetry; by eapply Hc | by apply Hwid].
      * done.
      * intros b1 b2 H1 H2.
        apply elem_of_cons in H1 as [->|H1];
          apply elem_of_cons in H2 as [->|H2].
        -- done.
        -- symmetry. by apply Hwid.
        -- by apply Hwid.
        -- by rewrite (Hwid b1), (Hwid b2).
      * done.
Qed.

(** X15.  [concat_all_datafiles] never stacks matrices of different
    widths and never skips a file: when it returns, every listed file
    is a key of [errors] and, for each model, the matrices of the
    listed files all have one width. *)
Theorem concat_all_datafiles_OK
    (errors : gmap string (gmap string matrix)) (datafiles : list string)
    (r : gmap string matrix) :
  concat_all_datafiles errors datafiles = OK r →
  (∀ f, f ∈ datafiles → is_Some (errors !! f))
  ∧ ∀ model b1 b2,
      b1 ∈ blocks errors model datafiles →
      b2 ∈ blocks errors model datafiles →
      ncols b1 = ncols b2.
Proof.
  intros Hr. destruct (concat_loop_OK _ _ _ _ Hr) as [Hknown Hwid].
  split; [done|]. intros model. specialize (Hwid model).
  by rewrite lookup_empty in Hwid.
Qed.

Lemma concat_all_datafiles_OK_witness :
  ∃ r, concat_all_datafiles example_errors ["a"; "b"] = OK r
    ∧ is_Some (example_errors !! "b").
Proof.
  destruct (concat_all_datafiles example_errors ["a"; "b"]) as [r|e] eqn:E;
    [|vm_compute in E; discriminate E].
  exists r. split; [done|].
  apply (proj1 (concat_all_datafiles_OK _ _ _ E)).
  apply elem_of_cons. right. by left.
Defined.

End AggregatorLaws.

(** ** More on the policy *)

Module PolicyLaws.
Import PolicyFacts AggregatorFacts.

Section Generic.
Context {model : Type}.
Implicit Types (self : AnomalyParameters model) (h : handler model).

(** A run of [fit] that returns. *)
Lemma run_fit_OK h self error self' :
  run h (fit self error) = OK self' →
  ∃ m0 fitted conv ids error',
    smoothing_kernel (smooth_factor self) = OK conv
    ∧ col_ids self = OK ids
    ∧ take_cols error ids = OK error'
    ∧ h _ ErrorNormalizationModel = OK m0
    ∧ h _ (Model_fit m0 error' conv None true) = OK fitted
    ∧ self' = set_err_norm_model self fitted.
Proof.
  unfold fit. cbn [run].
  destruct (h _ ErrorNormalizationModel) as [m0|] eqn:H0; [|done].
  destruct (smoothing_kernel _) as [conv|] eqn:H1; simpl; [|done].
  destruct (col_ids self) as [ids|] eqn:H2; simpl; [|done].
  destruct (take_cols error ids) as [error'|] eqn:H3; simpl; [|done].
  destruct (h _ (Model_fit _ _ _ _ _)) as [fitted|] eqn:H4; [|done].
  intros [= <-]. exists m0, fitted, conv, ids, error'. done.
Qed.

(** X16.  When [fit] returns, it has created one model and fit it once,
    on the signed error matrix restricted to the columns of the labels
    that are not ignored, with the uniform kernel, with [display] on and
    without [fit_gauss]; the object it leaves differs from the one it
    found in [err_norm_model] only. *)
Theorem fit_stores_model h self error self' :
  run h (fit self error) = OK self' →
  ∃ fitted conv ids error',
    smoothing_kernel (smooth_factor self) = OK conv
    ∧ col_ids self = OK ids
    ∧ take_cols error ids = OK error'
    ∧ calls h (fit self error) = [LogNew; LogFit error' conv None true]
    ∧ self' = set_err_norm_model self fitted
    ∧ method self' = method self ∧ labels self' = labels self
    ∧ ignore self' = ignore self ∧ threshold self' = threshold self
    ∧ smooth_factor self' = smooth_factor self
    ∧ n_anomalies self' = n_anomalies self
    ∧ peak_width self' = peak_width self.
Proof.
  intros Hrun.
  destruct (run_fit_OK _ _ _ _ Hrun)
    as (m0 & fitted & conv & ids & error' & H1 & H2 & H3 & H4 & H5 & ->).
  exists fitted, conv, ids, error'. do 3 (split; [done|]).
  split; [|done].
  rewrite (fit_calls self error conv ids error' H1 H2 H3).
  cbn [calls erase]. rewrite H4. cbn [calls erase]. by rewrite H5.
Qed.

(** X17.  Once [fit] has returned, [compute_anomalies] with a
    model-based method ([threshold_norm] or [gaussian]) does not fit
    again: its one call into [ano] is [anomaly_dates] on the stored
    model, with the column-restricted error matrix and the threshold. *)
Theorem fit_then_compute h self error0 self' error display
    conv ids error' error_norm :
  run h (fit self error0) = OK self' →
  method self = "threshold_norm" ∨ method self = "gaussian" →
  preamble self error = OK (conv, ids, error', error_norm) →
  ∃ fitted,
    err_norm_model self' = Some fitted
    ∧ compute_anomalies self' error display
      = Call (Model_anomaly_dates fitted error' (threshold self) conv
                display) Ret
    ∧ calls h (compute_anomalies self' error display)
      = [LogAnomalyDates error' (threshold self) conv display].
Proof.
  intros Hrun Hm Hp.
  destruct (run_fit_OK _ _ _ _ Hrun)
    as (m0 & fitted & _ & _ & _ & _ & _ & _ & _ & _ & ->).
  exists fitted. split; [done|].
  assert (compute_anomalies (set_err_norm_model self fitted) error display
          = Call (Model_anomaly_dates fitted error' (threshold self) conv
                    display) Ret) as Heq.
  { destruct Hm as [Hm|Hm].
    - exact (compute_anomalies_model (set_err_norm_model self fitted) error
               display conv ids error' error_norm None
               (or_introl (conj Hm eq_refl)) Hp).
    - exact (compute_anomalies_model (set_err_norm_model self fitted) error
               display conv ids error' error_norm (Some true)
               (or_intror (conj Hm eq_refl)) Hp). }
  split; [exact Heq|]. rewrite Heq. cbn [calls erase].
  by destruct (h _ _).
Qed.

(** X18.  With [smooth_factor = -1] the kernel cannot be built:
    [compute_anomalies] raises [ZeroDivisionError] whatever the method
    and the matrix, without calling [ano]; [fit] raises it after it has
    created the model. *)
Theorem smooth_factor_minus_one self error display :
  smooth_factor self = (-1)%Z →
  compute_anomalies self error display
  = Raise (ZeroDivisionError "division by zero")
  ∧ fit self error
    = Call ErrorNormalizationModel
        (λ _, Raise (ZeroDivisionError "division by zero")).
Proof.
  intros Hsf. split.
  - apply compute_anomalies_preamble_Err.
    unfold preamble, smoothing_kernel. by rewrite Hsf.
  - unfold fit, smoothing_kernel. by rewrite Hsf.
Qed.



(** X20.  The advertised methods are the dispatched ones: where the
    steps before the dispatch succeed, [compute_anomalies] goes on to a
    call into [ano] exactly when [self.method] is one of
    [available_methods()]. *)
Theorem available_methods_dispatched self error display
    conv ids error' error_norm :
  preamble self error = OK (conv, ids, error', error_norm) →
  (∃ X (c : ano_call model X) k,
     compute_anomalies self error display = Call c k)
  ↔ method self ∈ available_methods.
Proof.
  intros Hp. split.
  - intros (X & c & k & Hc).
    destruct (decide (method self ∈ available_methods)) as [|Hn]; [done|].
    rewrite (compute_anomalies_unknown _ _ _ _ _ _ _ Hn Hp) in Hc.
    discriminate Hc.
  - unfold available_methods. rewrite !elem_of_cons, elem_of_nil.
    unfold compute_anomalies, model_or_fit. rewrite Hp.
    intros [Hm|[Hm|[Hm|[Hm|[Hm|[]]]]]]; rewrite Hm; simpl;
      try (destruct (err_norm_model self); simpl);
      eexists _, _, _; reflexivity.
Qed.

End Generic.

Lemma fit_stores_model_witness :
  ∃ self' conv error',
    run ano_spec (fit (example_params "gaussian") example_error) = OK self'
    ∧ calls ano_spec (fit (example_params "gaussian") example_error)
      = [LogNew; LogFit error' conv None true]
    ∧ method self' = "gaussian".
Proof.
  destruct (run ano_spec (fit (example_params "gaussian") example_error))
    as [self'|e] eqn:E; [|vm_compute in E; discriminate E].
  destruct (fit_stores_model ano_spec _ _ _ E)
    as (fitted & conv & ids & error' & _ & _ & _ & Hc & _ & Hm & _).
  exists self', conv, error'. done.
Defined.

Lemma fit_then_compute_witness :
  ∃ self' fitted,
    run ano_spec (fit (example_params "gaussian") example_error) = OK self'
    ∧ err_norm_model self' = Some fitted
    ∧ calls ano_spec (compute_anomalies self' example_error false)
      = [LogAnomalyDates example_error (1 # 4) [1 # 2; 1 # 2] false].
Proof.
  destruct (run ano_spec (fit (example_params "gaussian") example_error))
    as [self'|e] eqn:E; [|vm_compute in E; discriminate E].
  assert (preamble (example_params "gaussian") example_error
          = OK ([1 # 2; 1 # 2], [0], example_error,
                Matrix 1 [[0 # 200001]; [200000 # 200001]])) as Hp
    by (vm_compute; reflexivity).
  destruct (fit_then_compute ano_spec (example_params "gaussian")
              example_error self' example_error false _ _ _ _ E
              (or_intror eq_refl) Hp) as (fitted & Hf & _ & Hc).
  exists self', fitted. done.
Defined.

Lemma smooth_factor_minus_one_witness :
  compute_anomalies
    (set_labels (init (model := option bool) "peaks" (-1) 3 40 10%Z [])
       ["a"]) example_error false
  = Raise (ZeroDivisionError "division by zero").
Proof.
  exact (proj1 (smooth_factor_minus_one
                  (set_labels (init (model := option bool) "peaks" (-1) 3 40
                                 10%Z []) ["a"])
                  example_error false eq_refl)).
Defined.


Lemma available_methods_dispatched_witness :
  ∃ X (c : ano_call (option bool) X) k,
    compute_anomalies (example_params "votes") example_error false
    = Call c k.
Proof.
  assert (preamble (example_params "votes") example_error
          = OK ([1 # 2; 1 # 2], [0], example_error,
                Matrix 1 [[0 # 200001]; [200000 # 200001]])) as Hp
    by (vm_compute; reflexivity).
  apply (available_methods_dispatched (example_params "votes")
           example_error false _ _ _ _ Hp).
  unfold available_methods. rewrite !elem_of_cons. tauto.
Defined.

Lemma np_where_gt_from_increasing (k : nat) (s : list npfloat) (t : Q) :
  (∀ x, x ∈ np_where_gt_from k s t → k ≤ x < k + length s)
  ∧ ∀ i j x y, i < j →
      np_where_gt_from k s t !! i = Some x →
      np_where_gt_from k s t !! j = Some y → x < y.
Proof.
  revert k. induction s as [|v s IH]; intros k; simpl.
  - split; [intros x Hx; by apply elem_of_nil in Hx | done].
  - destruct (IH (S k)) as [Hb Hinc]. destruct (np_gt v t).
    + split.
      * intros x Hx. apply elem_of_cons in Hx as [->|Hx]; [lia|].
        specialize (Hb x Hx). lia.
      * intros [|i] [|j] x y Hij Hx Hy; simpl in *; try lia.
        -- injection Hx as <-.
           apply list_elem_of_lookup_2 in Hy. specialize (Hb y Hy). lia.
        -- apply (Hinc i j); [lia | done | done].
    + split; [|exact Hinc]. intros x Hx. specialize (Hb x Hx). lia.
Qed.

(** X21.  With the [threshold] method, whatever [ano.sum_conv_error]
    returns, the anomalies come in strictly increasing order (so
    without repetition), each a position of the returned trace; the
    second component is that trace and the third is [None]. *)
Theorem threshold_anomalies_increasing {model : Type} (h : handler model)
    (self : AnomalyParameters model) (error : matrix) (display : bool)
    (a : list nat) (s : option (list npfloat)) (p : option (list nat)) :
  method self = "threshold" →
  run h (compute_anomalies self error display) = OK (a, s, p) →
  ∃ trace,
    s = Some trace ∧ p = None
    ∧ (∀ i j x y, i < j → a !! i = Some x → a !! j = Some y → x < y)
    ∧ (∀ x, x ∈ a → x < length trace).
Proof.
  intros Hm Hrun.
  destruct (preamble self error) as [[[[conv ids] e'] en]|e] eqn:Hp.
  2:{ rewrite (compute_anomalies_preamble_Err _ _ _ _ Hp) in Hrun.
      discriminate Hrun. }
  rewrite (compute_anomalies_threshold _ _ _ _ _ _ _ Hm Hp) in Hrun.
  cbn [run] in Hrun.
  destruct (h _ (Sum_conv_error en conv)) as [summed|]; [|done].
  injection Hrun as <- <- <-.
  eexists. split; [reflexivity|]. split; [reflexivity|].
  destruct (np_where_gt_from_increasing 0
              (map (λ x, np_div_len x (length ids)) summed) (threshold self))
    as [Hb Hinc].
  split; [exact Hinc|]. intros x Hx. specialize (Hb x Hx). lia.
Qed.

Lemma threshold_anomalies_increasing_witness :
  ∃ a trace,
    run ano_spec (compute_anomalies (example_params "threshold")
                    example_error false) = OK (a, Some trace, None)
    ∧ ∀ x, x ∈ a → x < length trace.
Proof.
  destruct (run ano_spec (compute_anomalies (example_params "threshold")
                            example_error false))
    as [[[a s] p]|e] eqn:E; [|vm_compute in E; discriminate E].
  destruct (threshold_anomalies_increasing ano_spec
              (example_params "threshold") example_error false a s p
              eq_refl E) as (trace & -> & -> & _ & Hb).
  exists a, trace. done.
Defined.

(** X22.  Where every listed file is a key of [errors], the matrices of
    one model have one width and some listed file holds the model
    [sname], [learn_anomalies] is [fit] on the matrix that stacks the
    model's matrices of the listed files in the order of the list. *)
Theorem learn_anomalies_fits_stack {model : Type}
    (errors : gmap string (gmap string matrix))
    (self : AnomalyParameters model) (sname : string)
    (datafiles : list string) (b : matrix) (bs : list matrix) :
  (∀ f, f ∈ datafiles → is_Some (errors !! f)) →
  equal_width errors →
  blocks errors sname datafiles = b :: bs →
  learn_anomalies errors self sname datafiles
  = fit self (Matrix (ncols b) (concat (rows <$> b :: bs))).
Proof.
  intros Hknown Hw Hb.
  destruct (concat_all_datafiles_stack errors datafiles Hknown Hw)
    as (r & Hr & Hm).
  specialize (Hm sname). rewrite Hb in Hm.
  destruct Hm as (m & Hm & Hc & Hrows).
  unfold learn_anomalies. rewrite Hr. simpl. rewrite Hm.
  f_equal. destruct m as [c rs]. simpl in *. by subst.
Qed.

Lemma learn_anomalies_fits_stack_witness :
  learn_anomalies example_errors (example_params "gaussian") "m" ["a"; "b"]
  = fit (example_params "gaussian") (Matrix 1 [[1]; [2]; [3]]%Q).
Proof.
  apply (learn_anomalies_fits_stack example_errors
           (example_params "gaussian") "m" ["a"; "b"]
           (Matrix 1 [[1]; [2]]%Q) [Matrix 1 [[3]]%Q]).
  - intros f Hf. unfold example_errors.
    apply elem_of_cons in Hf as [->|Hf]; [by rewrite lookup_insert_eq|].
    apply elem_of_cons in Hf as [->|Hf]; [|by apply elem_of_nil in Hf].
    rewrite lookup_insert_ne, lookup_insert_eq; done.
  - intros mdl f1 f2 e1 e2 H1 H2.
    apply example_errors_block in H1, H2. congruence.
  - vm_compute. reflexivity.
Defined.

(** X23.  Where every listed file is a key of [errors] and the widths
    agree but no listed file holds the model [sname] (so for an empty
    file list), [learn_anomalies] raises [KeyError] with that name and
    calls nothing of [ano]: no model is created. *)
Theorem learn_anomalies_missing_model {model : Type}
    (errors : gmap string (gmap string matrix))
    (self : AnomalyParameters model) (sname : string)
    (datafiles : list string) :
  (∀ f, f ∈ datafiles → is_Some (errors !! f)) →
  equal_width errors →
  blocks errors sname datafiles = [] →
  learn_anomalies errors self sname datafiles = Raise (KeyError sname)
  ∧ ∀ h : handler model,
      calls h (learn_anomalies errors self sname datafiles) = [].
Proof.
  intros Hknown Hw Hb.
  destruct (concat_all_datafiles_stack errors datafiles Hknown Hw)
    as (r & Hr & Hm).
  specialize (Hm sname). rewrite Hb in Hm.
  assert (learn_anomalies errors self sname datafiles
          = Raise (KeyError sname)) as Heq.
  { unfold learn_anomalies. rewrite Hr. simpl. by rewrite Hm. }
  split; [exact Heq|]. intros h. by rewrite Heq.
Qed.

Lemma learn_anomalies_missing_model_witness :
  learn_anomalies example_errors (example_params "gaussian") "m" []
  = Raise (KeyError "m").
Proof.
  refine (proj1 (learn_anomalies_missing_model example_errors
                   (example_params "gaussian") "m" [] _ _ eq_refl)).
  - intros f Hf. by apply elem_of_nil in Hf.
  - intros mdl f1 f2 e1 e2 H1 H2.
    apply example_errors_block in H1, H2. congruence.
Defined.

End PolicyLaws.

(** ** The scan for csv files *)

Module DatafilesFacts.

(** Induction on a directory tree. *)
Lemma fs_entry_tree_ind (P : fs_entry → Prop) :
  (∀ fname, P (File fname)) →
  (∀ fname children, Forall P children → P (Dir fname children)) →
  ∀ e, P e.
Proof.
  intros HF HD. fix IH 1. intros [fname|fname children]; [apply HF|].
  apply HD. induction children as [|c cs IHcs]; constructor;
    [apply IH | exact IHcs].
Qed.

Lemma endswith_app (a b suffix : string) :
  endswith b suffix = true → endswith (a +:+ b) suffix = true.
Proof.
  intros H. induction a as [|c a IH]; [done|].
  simpl. rewrite IH. by destruct (match suffix with EmptyString => _ | _ => _ end).
Qed.

Lemma endswith_path_join (prefix fname suffix : string) :
  endswith fname suffix = true →
  endswith (path_join prefix fname) suffix = true.
Proof.
  intros H. unfold path_join.
  destruct (String.prefix "/" fname); [done|].
  destruct (_ || _); [by apply endswith_app|].
  by do 2 apply endswith_app.
Qed.

Lemma datafiles_of_csv (e : fs_entry) :
  ∀ prefix, Forall (λ p, endswith p ".csv" = true) (datafiles_of prefix e).
Proof.
  induction e as [fname|fname children IH] using fs_entry_tree_ind;
    intros prefix; simpl.
  - destruct (endswith fname ".csv") eqn:Hcsv; [|constructor].
    constructor; [|constructor]. by apply endswith_path_join.
  - apply Forall_flat_map. eapply Forall_impl; [exact IH|].
    intros c Hc. apply Hc.
Qed.

(** X24.  Every path that [get_datafiles] returns ends in [.csv],
    whatever the directory holds and whatever the prefix; a directory
    is entered, never listed, whatever its own name. *)
Theorem get_datafiles_csv (listing : list fs_entry) (prefix : string) :
  Forall (λ p, endswith p ".csv" = true) (get_datafiles listing prefix)
  ∧ ∀ fname, get_datafiles [Dir fname listing] prefix
             = get_datafiles listing (path_join prefix fname).
Proof.
  split.
  - unfold get_datafiles. apply Forall_flat_map.
    apply Forall_forall. intros e _. apply datafiles_of_csv.
  - intros fname. unfold get_datafiles. simpl. by rewrite app_nil_r.
Qed.

Lemma append_assoc (a b c : string) : (a +:+ b) +:+ c = a +:+ (b +:+ c).
Proof.
  induction a as [|x a IH]; [done|].
  change (String x ((a +:+ b) +:+ c) = String x (a +:+ (b +:+ c))).
  by rewrite IH.
Qed.

Lemma prefix_slash_String (c : Ascii.ascii) (s : string) :
  String.prefix "/" (String c s)
  = String.eqb (String c EmptyString) "/".
Proof.
  change (String.prefix "/" (String c s))
    with (match Ascii.ascii_dec
                  (Ascii.Ascii true true true true false true false false) c
          with
          | left _ => String.prefix EmptyString s
          | right _ => false
          end).
  destruct (Ascii.ascii_dec _ c) as [<-|Hne].
  - by destruct s.
  - symmetry. apply String.eqb_neq. intros [= ->]. done.
Qed.

Lemma eqb_slash_single (c : Ascii.ascii) (s : string) :
  String.eqb (String c s) "/" = true →
  s = EmptyString ∧ String.eqb (String c EmptyString) "/" = true.
Proof.
  intros H. apply String.eqb_eq in H. injection H as -> ->. done.
Qed.

Lemma no_slash_endswith (d : string) :
  no_slash d = true → endswith d "/" = false.
Proof.
  induction d as [|c d IH]; [done|].
  cbn [no_slash endswith]. intros H.
  apply andb_true_iff in H as [Hc Hd]. apply negb_true_iff in Hc.
  destruct (String.eqb (String c d) "/") eqn:E; [|by apply IH].
  apply eqb_slash_single in E as [_ E]. congruence.
Qed.

Lemma endswith_app_nonempty (a d : string) :
  d ≠ EmptyString → endswith (a +:+ d) "/" = endswith d "/".
Proof.
  intros Hd. induction a as [|c a IH]; [done|].
  change (String c a +:+ d) with (String c (a +:+ d)).
  cbn [endswith].
  destruct (String.eqb (String c (a +:+ d)) "/") eqn:E; [|exact IH].
  apply eqb_slash_single in E as [E _].
  destruct a; simpl in E; [done | discriminate E].
Qed.

Lemma valid_name_inv (d : string) :
  valid_name d = true →
  d ≠ EmptyString ∧ String.prefix "/" d = false ∧ endswith d "/" = false.
Proof.
  unfold valid_name. intros H. apply andb_true_iff in H as [Hne Hns].
  split; [by intros ->|]. split; [|by apply no_slash_endswith].
  destruct d as [|c d]; [done|]. rewrite prefix_slash_String.
  cbn [no_slash] in Hns. apply andb_true_iff in Hns as [Hc _].
  by apply negb_true_iff in Hc.
Qed.

Lemma path_join_empty (b : string) : path_join EmptyString b = b.
Proof. unfold path_join. by destruct (String.prefix "/" b). Qed.

(** A path is relative when it does not start with [/]. *)
Lemma path_join_relative (d x : string) :
  valid_name d = true → String.prefix "/" x = false →
  path_join d x = d +:+ "/" +:+ x
  ∧ String.prefix "/" (path_join d x) = false.
Proof.
  intros Hd Hx. destruct (valid_name_inv d Hd) as (Hne & Hrel & Hend).
  assert (path_join d x = d +:+ "/" +:+ x) as ->.
  { unfold path_join. rewrite Hx, Hend.
    destruct d; [done|]. reflexivity. }
  split; [done|]. destruct d as [|c d]; [done|].
  change (String c d +:+ "/" +:+ x) with (String c (d +:+ "/" +:+ x)).
  rewrite prefix_slash_String. by rewrite prefix_slash_String in Hrel.
Qed.

Lemma path_join_assoc (p d x : string) :
  valid_name d = true → String.prefix "/" x = false →
  path_join (path_join p d) x = path_join p (path_join d x).
Proof.
  intros Hd Hx. destruct (valid_name_inv d Hd) as (Hne & Hrel & Hend).
  destruct (path_join_relative d x Hd Hx) as [-> Hrel'].
  unfold path_join at 3. rewrite Hrel'.
  unfold path_join at 2. rewrite Hrel.
  destruct (String.eqb p EmptyString || endswith p "/").
  - unfold path_join. rewrite Hx.
    rewrite endswith_app_nonempty, Hend by done.
    assert (String.eqb (p +:+ d) EmptyString = false) as ->.
    { apply String.eqb_neq. destruct p; [done | discriminate]. }
    simpl. apply append_assoc.
  - unfold path_join. rewrite Hx.
    rewrite !endswith_app_nonempty, Hend by done.
    assert (String.eqb (p +:+ "/" +:+ d) EmptyString = false) as ->.
    { apply String.eqb_neq. destruct p; discriminate. }
    simpl. by rewrite !append_assoc.
Qed.

Lemma flat_map_map_ext {A} (f g : A → list string) (h : string → string)
    (l : list A) :
  Forall (λ a, f a = map h (g a)) l →
  flat_map f l = map h (flat_map g l).
Proof.
  induction 1 as [|a l Ha _ IH]; [done|].
  simpl. by rewrite map_app, Ha, IH.
Qed.

(** The scan of one entry, relative to the prefix. *)
Lemma datafiles_of_relative (e : fs_entry) :
  valid_entry e = true →
  (∀ prefix, datafiles_of prefix e
             = map (path_join prefix) (datafiles_of EmptyString e))
  ∧ Forall (λ x, String.prefix "/" x = false) (datafiles_of EmptyString e).
Proof.
  induction e as [fname|fname children IH] using fs_entry_tree_ind;
    cbn [valid_entry]; intros Hv.
  - destruct (valid_name_inv fname Hv) as (_ & Hrel & _). simpl.
    destruct (endswith fname ".csv"); [|by split].
    rewrite path_join_empty. split; [done|]. by repeat constructor.
  - apply andb_true_iff in Hv as [Hd Hcs].
    assert (Forall (λ c,
              (∀ prefix, datafiles_of prefix c
                         = map (path_join prefix)
                               (datafiles_of EmptyString c))
              ∧ Forall (λ x, String.prefix "/" x = false)
                       (datafiles_of EmptyString c)) children) as IH'.
    { rewrite forallb_forall in Hcs. rewrite Forall_forall in IH.
      apply Forall_forall. intros c Hc. apply IH; [done|].
      apply Hcs. by apply list_elem_of_In. }
    clear IH Hcs. cbn [datafiles_of]. rewrite path_join_empty.
    assert (∀ prefix,
              flat_map (datafiles_of (path_join prefix fname)) children
              = map (path_join prefix)
                    (flat_map (datafiles_of fname) children)) as Hmain.
    { intros prefix. apply flat_map_map_ext.
      eapply Forall_impl; [exact IH'|]. intros c [Hc Hrel]. simpl.
      rewrite (Hc (path_join prefix fname)), (Hc fname).
      rewrite map_map. apply map_ext_in. intros x Hx.
      rewrite Forall_forall in Hrel.
      apply path_join_assoc; [done|]. apply Hrel.
      by apply list_elem_of_In. }
    split; [exact Hmain|].
    apply Forall_flat_map. eapply Forall_impl; [exact IH'|].
    intros c [Hc Hrel]. simpl. rewrite (Hc fname).
    apply Forall_forall. intros y Hy.
    apply list_elem_of_fmap in Hy as (x & -> & Hx).
    rewrite Forall_forall in Hrel.
    by apply path_join_relative, Hrel.
Qed.

(** X25.  Where the names are those of a file system (not empty,
    without [/]), the paths that [get_datafiles] returns for a prefix
    are the paths it returns for the empty prefix, each joined to the
    prefix; for the empty prefix they are relative paths. *)
Theorem get_datafiles_prefix (listing : list fs_entry) (prefix : string) :
  forallb valid_entry listing = true →
  get_datafiles listing prefix
  = map (path_join prefix) (get_datafiles listing EmptyString)
  ∧ Forall (λ x, String.prefix "/" x = false)
           (get_datafiles listing EmptyString).
Proof.
  intros Hv. rewrite forallb_forall in Hv.
  assert (Forall (λ e, valid_entry e = true) listing) as Hall.
  { apply Forall_forall. intros e He. apply Hv. by apply list_elem_of_In. }
  unfold get_datafiles. split.
  - apply flat_map_map_ext. eapply Forall_impl; [exact Hall|].
    intros e He. simpl. by apply datafiles_of_relative.
  - apply Forall_flat_map. eapply Forall_impl; [exact Hall|].
    intros e He. simpl. by apply datafiles_of_relative.
Qed.

Lemma get_datafiles_prefix_witness :
  get_datafiles example_listing "data"
  = map (path_join "data") ["a.csv"; "test/b.csv"; "test/old.csv/c.csv"].
Proof.
  rewrite (proj1 (get_datafiles_prefix example_listing "data" eq_refl)).
  reflexivity.
Defined.

End DatafilesFacts.

(** ** The mean error of one feature *)

Module MeanErrorFacts.
Import NormalizerFacts.

Local Open Scope Q_scope.

Lemma Qsum_cons (x : Q) (l : list Q) : Qsum (x :: l) = x + Qsum l.
Proof. reflexivity. Qed.

Lemma Qsum_abs_nonneg (l : list Q) : 0 <= Qsum (map Qabs l).
Proof.
  induction l as [|x l IH]; [apply Qle_refl|].
  cbn [map]. rewrite Qsum_cons.
  pose proof (Qabs_nonneg x). lra.
Qed.

(** The absolute difference of two scaled values. *)
Lemma Qabs_scaled (t p mn d : Q) :
  0 < d → Qabs ((t - mn) / d - (p - mn) / d) == Qabs (t - p) / d.
Proof.
  intros Hd.
  assert ((t - mn) / d - (p - mn) / d == (t - p) * / d) as ->
    by (field; lra).
  rewrite Qabs_Qmult.
  assert (0 <= / d) as Hinv by (apply Qlt_le_weak, Qinv_lt_0_compat, Hd).
  rewrite (Qabs_pos (/ d) Hinv). reflexivity.
Qed.

Lemma Qsum_abs_scaled (a b : list Q) (mn d : Q) :
  0 < d →
  Qsum (map Qabs (zip_with Qminus (map (λ t, (t - mn) / d) b)
                                  (map (λ p, (p - mn) / d) a)))
  == Qsum (map Qabs (zip_with Qminus b a)) / d.
Proof.
  intros Hd. revert a. induction b as [|t b IH]; intros a.
  - simpl. field. lra.
  - destruct a as [|p a]; [simpl; field; lra|].
    cbn [map zip_with]. rewrite !Qsum_cons, IH, Qabs_scaled by done.
    field. lra.
Qed.

Lemma scaled_diff_length (a b : list Q) (f g : Q → Q) :
  length a = length b →
  length (map Qabs (zip_with Qminus (map f b) (map g a))) = length b.
Proof.
  intros H. rewrite length_map, length_zip_with_l_eq;
    rewrite !length_map; congruence.
Qed.

Lemma reduce_1d_extremes (v : list Q) :
  v ≠ [] →
  ∃ mx mn,
    reduce_1d Qmax "maximum" v = OK mx ∧ reduce_1d Qmin "minimum" v = OK mn
    ∧ (∀ t, t ∈ v → mn <= t ∧ t <= mx).
Proof.
  destruct v as [|x rest]; [done|]. intros _.
  destruct (fold_left_Qmax_ge rest x) as [H1 H2].
  destruct (fold_left_Qmin_le rest x) as [H3 H4].
  eexists _, _. split; [reflexivity|]. split; [reflexivity|].
  intros t Ht. apply elem_of_cons in Ht as [->|Ht]; [done|].
  split; [by apply H4 | by apply H2].
Qed.

(** X26.  For two matrices with the same number of rows (at least one)
    and a feature within both widths, [get_signal_mean_error] returns
    the mean absolute difference between the two columns divided by
    [mx - mn + eps], for [mn] and [mx] the least and the greatest entry
    of the target column; it is never negative. *)
Theorem get_signal_mean_error_scaled (pred targ : matrix) (feat : nat) :
  nrows pred = nrows targ → rows targ ≠ [] →
  (feat < ncols pred)%nat → (feat < ncols targ)%nat →
  ∃ m mx mn,
    get_signal_mean_error pred targ feat = OK (Finite m)
    ∧ reduce_1d Qmax "maximum" (column targ feat) = OK mx
    ∧ reduce_1d Qmin "minimum" (column targ feat) = OK mn
    ∧ (∀ t, t ∈ column targ feat → mn <= t ∧ t <= mx)
    ∧ 0 < mx - mn + eps
    ∧ m == Qsum (map Qabs (zip_with Qminus (column targ feat)
                                           (column pred feat)))
            / inject_Z (Z.of_nat (nrows targ)) / (mx - mn + eps)
    ∧ 0 <= m.
Proof.
  intros Hrows Hne Hp Ht.
  assert (column targ feat ≠ []) as Hcol.
  { unfold column. destruct (rows targ); [done | discriminate]. }
  destruct (reduce_1d_extremes _ Hcol) as (mx & mn & Hmx & Hmn & Hb).
  assert (0 < mx - mn + eps) as Hd.
  { destruct (column targ feat) as [|t0 rest] eqn:E; [done|].
    destruct (Hb t0) as [H1 H2]; [by left|]. pose proof eps_pos. lra. }
  assert (length (column targ feat) = nrows targ) as Lt
    by (unfold column, nrows; by rewrite length_map).
  assert (length (column pred feat) = nrows targ) as Lp
    by (unfold column, nrows in *; by rewrite length_map).
  assert (0 < inject_Z (Z.of_nat (nrows targ))) as Hn.
  { change 0 with (inject_Z 0). rewrite <- Zlt_Qlt.
    unfold nrows. destruct (rows targ); [done | simpl; lia]. }
  eexists _, mx, mn. split.
  { unfold get_signal_mean_error, take_col.
    apply Nat.ltb_lt in Hp, Ht. rewrite Hp, Ht. simpl.
    fold (column pred feat). fold (column targ feat).
    unfold normalize_data_1d. rewrite Hmx, Hmn. simpl.
    unfold broadcast_1d.
    case_decide as Hlen;
      [|exfalso; apply Hlen; rewrite !length_map; congruence].
    simpl. unfold np_mean.
    destruct (map Qabs _) as [|y ys] eqn:E.
    - exfalso. apply (f_equal length) in E.
      rewrite scaled_diff_length, Lt in E by congruence. simpl in E.
      unfold nrows in *. destruct (rows targ); [done | discriminate E].
    - rewrite <- E. reflexivity. }
  do 4 (split; [done|]).
  assert (length (map Qabs
            (zip_with Qminus
               (map (λ t, (t - mn) / (mx - mn + eps)) (column targ feat))
               (map (λ p, (p - mn) / (mx - mn + eps)) (column pred feat))))
          = nrows targ) as ->.
  { rewrite scaled_diff_length by congruence. exact Lt. }
  rewrite Qsum_abs_scaled by done.
  set (total := Qsum (map Qabs (zip_with Qminus (column targ feat)
                                                (column pred feat)))).
  assert (0 <= total) as HS by apply Qsum_abs_nonneg.
  split; [field; lra|].
  apply Qle_shift_div_l; [done|]. rewrite Qmult_0_l.
  apply Qle_shift_div_l; [done|]. by rewrite Qmult_0_l.
Qed.

Lemma get_signal_mean_error_scaled_witness :
  ∃ m, get_signal_mean_error (Matrix 2 [[1; 2]; [3; 6]])
         (Matrix 2 [[1; 3]; [3; 5]]) 1 = OK (Finite m)
    ∧ 0 <= m.
Proof.
  destruct (get_signal_mean_error_scaled (Matrix 2 [[1; 2]; [3; 6]])
              (Matrix 2 [[1; 3]; [3; 5]]) 1)
    as (m & mx & mn & H & _ & _ & _ & _ & _ & H0).
  - reflexivity.
  - discriminate.
  - simpl. lia.
  - simpl. lia.
  - exists m. done.
Defined.

(** X27.  With a feature within both widths and a target with rows,
    [get_signal_mean_error] raises a [ValueError], the one of
    broadcasting, when the two matrices differ in their number of rows
    and neither has exactly one row. *)
Theorem get_signal_mean_error_rows_mismatch (pred targ : matrix)
    (feat : nat) :
  (feat < ncols pred)%nat → (feat < ncols targ)%nat →
  rows targ ≠ [] →
  nrows pred ≠ nrows targ → nrows pred ≠ 1%nat → nrows targ ≠ 1%nat →
  ∃ msg, get_signal_mean_error pred targ feat = Err (ValueError msg).
Proof.
  intros Hp Ht Hne Hrows H1 H2.
  assert (column targ feat ≠ []) as Hcol.
  { unfold column. destruct (rows targ); [done | discriminate]. }
  destruct (reduce_1d_extremes _ Hcol) as (mx & mn & Hmx & Hmn & _).
  unfold get_signal_mean_error, take_col.
  apply Nat.ltb_lt in Hp, Ht. rewrite Hp, Ht. simpl.
  fold (column pred feat). fold (column targ feat).
  unfold normalize_data_1d. rewrite Hmx, Hmn. simpl.
  unfold broadcast_1d, column. rewrite !length_map.
  fold (nrows pred). fold (nrows targ).
  rewrite decide_False by congruence.
  rewrite decide_False by done.
  rewrite decide_False by done. by eexists.
Qed.

Lemma get_signal_mean_error_rows_mismatch_witness :
  get_signal_mean_error (Matrix 1 [[1]; [2]; [3]]) (Matrix 1 [[1]; [2]]) 0
  = Err (ValueError
           "operands could not be broadcast together with shapes (2,) (3,) ").
Proof.
  destruct (get_signal_mean_error_rows_mismatch
              (Matrix 1 [[1]; [2]; [3]]) (Matrix 1 [[1]; [2]]) 0)
    as [msg H].
  - simpl. lia.
  - simpl. lia.
  - discriminate.
  - unfold nrows. simpl. lia.
  - unfold nrows. simpl. lia.
  - unfold nrows. simpl. lia.
  - rewrite H. vm_compute in H. by injection H as <-.
Defined.

End MeanErrorFacts.
